(** * gutenbergrtc: peer discovery and handshake of [src/app.js]

    A shallow embedding of the [GRTC] class of [src/app.js] and of the
    event loop that drives it, followed by the properties of the discovery
    poll, of the role-dependent start-up order and of the message handler.

    Conventions.
    - A JavaScript [Set] is the list of its elements in insertion order,
      without repetition; [forEach] and [for ... of] visit that list from
      left to right.
    - A signal blob is a [string].  The local signal object handed over by
      the transport is only ever used through [JSON.stringify], so the
      model keeps the serialised text of the object in its place; [null]
      is [None].
    - Calls into the collaborators ([simple-peer], [jQuery], [./crypto]) are
      recorded as effects, in program order; their callbacks enter the model
      as events.  The calls return, but for the two that the transport
      refuses: [peer.signal] throws on a peer that is destroyed, [peer.send]
      on a peer that is not connected.  The exception leaves the callback
      that made the call, since no method of the class catches it.  The
      listeners that an application registers on the object are taken to
      return.
    - A turn of the event loop holds one event of the transport, which is
      how [simple-peer] emits them; the callback that [init] passes to
      [peerHandler().then], a microtask, runs at the end of the turn of the
      first ['signal'] event. *)

From Stdlib Require Import Ascii.
From stdpp Require Import base option list strings gmap.

(** ** JavaScript [Set] *)

Module JSSet.
Section ops.
Context {A : Type} `{EqDecision A}.

(** [set.has(x)] *)
Definition has (s : list A) (x : A) : bool := bool_decide (x ∈ s).

(** [set.add(x)]: a new element goes last, a present one stays in place. *)
Definition add (s : list A) (x : A) : list A :=
  if has s x then s else s ++ [x].

(** [set.delete(x)] *)
Definition delete (s : list A) (x : A) : list A :=
  filter (λ y, y ≠ x) s.

(** [new Set(iterable)] *)
Definition of_iterable (l : list A) : list A := foldl add [] l.

End ops.
End JSSet.

(** ** [GRTC.setDifference] *)

(** [setDifference(setA, setB)], on the values of the two sets: copy [setA],
    then delete every element of [setB] from the copy. *)
Definition setDifference {A : Type} `{EqDecision A} (setA setB : list A)
  : list A :=
  let difference := JSSet.of_iterable setA in
  foldl (λ difference elem, JSSet.delete difference elem) difference setB.

(** ** [setDifference] on set objects

    The same function with the three [Set] objects in a store of objects, so
    that the identity of the sets and every write are explicit. *)

Module Store.

Abbreviation heap := (gmap nat (list string)).

(** [new Set(iterable)]: a reference that the store does not hold yet. *)
Definition alloc (h : heap) (s : list string) : nat * heap :=
  let r := fresh (dom h) in (r, <[r := s]> h).

(** [for (let elem of setB) { difference.delete(elem); }] with the iterator
    at position [i] of [setB]; the iterator reads the object at every step. *)
Fixpoint for_of_delete (fuel i : nat) (setB difference : nat) (h : heap)
  : option heap :=
  match fuel with
  | O => None
  | S fuel' =>
      match h !! setB with
      | None => None
      | Some elems =>
          match elems !! i with
          | None => Some h
          | Some elem =>
              for_of_delete fuel' (S i) setB difference
                (alter (λ s, JSSet.delete s elem) difference h)
          end
      end
  end.

(** [setDifference(setA, setB)] on references; [None] when an argument is
    not a [Set] of the store. *)
Definition setDifference_obj (h : heap) (setA setB : nat)
  : option (nat * heap) :=
  match h !! setA, h !! setB with
  | Some elemsA, Some elemsB =>
      let '(difference, h1) := alloc h (JSSet.of_iterable elemsA) in
      match for_of_delete (S (length elemsB)) 0 setB difference h1 with
      | Some h2 => Some (difference, h2)
      | None => None
      end
  | _, _ => None
  end.

End Store.

(** ** JSON values and the errors that the callbacks meet *)

#[warnings="-register-all"]
Inductive JSValue : Type :=
| JNull
| JBool (b : bool)
| JNumber (literal : string)
| JString (s : string)
| JArray (items : list JSValue)
| JObject (fields : list (string * JSValue)).

Inductive JSError : Type :=
| SyntaxError
| TypeError
| PeerError.  (* what a call into [simple-peer] throws *)

(** [JSON.stringify(self.peerSignal)] *)
Definition JSON_stringify (signal : option string) : string :=
  match signal with
  | None => "null"
  | Some text => text
  end.

(** ['publicKey' in parsedData]: a [TypeError] on a primitive value. *)
Definition in_publicKey (parsedData : JSValue) : option bool :=
  match parsedData with
  | JObject fields => Some (bool_decide ("publicKey" ∈ fields.*1))
  | JArray _ => Some false
  | _ => None
  end.

(** The value of a property of an object; of two bindings of one name the
    later one counts. *)
Fixpoint property (name : string) (fields : list (string * JSValue))
  : option JSValue :=
  match fields with
  | [] => None
  | (k, v) :: rest =>
      match property name rest with
      | Some v' => Some v'
      | None => if decide (k = name) then Some v else None
      end
  end.

(** [parsedData['publicKey']] *)
Definition get_publicKey (parsedData : JSValue) : JSValue :=
  match parsedData with
  | JObject fields => default JNull (property "publicKey" fields)
  | _ => JNull
  end.

(** ** The objects of [src/app.js] *)

(** [class Signal] *)
Record Signal : Type := {
  sig_url : string;
  sig_grtcID : string;
  signalID : option string
}.

(** The options of [new Peer({initiator, trickle})]. *)
Record Peer : Type := {
  initiator : bool;
  trickle : bool
}.

(** What [crypto.generateKeys()] resolves to. *)
Record Keys : Type := {
  publicKey : string;
  privateKey : string
}.

(** The life of the transport, as far as the class meets it: a peer is
    created, [peer.signal] with a blob of another peer starts the
    negotiation, ['connect'] ends it, and an error or the end of the
    connection destroys the peer for good. *)
Inductive Transport : Type :=
| transport_new
| transport_negotiating
| transport_connected
| transport_destroyed.

#[global] Instance Transport_eq_dec : EqDecision Transport.
Proof. solve_decision. Defined.

(** The two listeners that the class itself registers for ['peerFound']. *)
Inductive PeerFoundListener : Type :=
| feed_transport       (* peerHandler:     self.peer.signal(signal) *)
| start_key_exchange.  (* securityHandler: crypto.generateKeys().then(...) *)

(** [class GRTC]: the fields of the constructor, the listeners registered on
    the object itself, what the event loop holds for it (the interval
    timers that are set, the promises that are not settled), and the state
    of its transport. *)
Record GRTC : Type := {
  peer : option Peer;
  peerSignal : option string;
  signalInstance : option Signal;
  joinee : bool;
  reload : bool;
  url : string;
  grtcID : string;
  otherPeers : list string;
  listenSignalTimer : nat;
  listenSignalCount : nat;
  keys : option Keys;
  on_peerFound : list PeerFoundListener;
  on_publicKey : nat;
  handshake_settled : bool;
  intervals : list nat;
  next_handle : nat;
  pending_getSignal : nat;
  pending_updateSignal : nat;
  pending_generateKeys : nat;
  transport : Transport
}.

Definition set_peer (v : option Peer) (o : GRTC) : GRTC :=
  {| peer := v; peerSignal := peerSignal o;
     signalInstance := signalInstance o; joinee := joinee o;
     reload := reload o; url := url o; grtcID := grtcID o;
     otherPeers := otherPeers o; listenSignalTimer := listenSignalTimer o;
     listenSignalCount := listenSignalCount o; keys := keys o;
     on_peerFound := on_peerFound o; on_publicKey := on_publicKey o;
     handshake_settled := handshake_settled o; intervals := intervals o;
     next_handle := next_handle o; pending_getSignal := pending_getSignal o;
     pending_updateSignal := pending_updateSignal o;
     pending_generateKeys := pending_generateKeys o;
     transport := transport o |}.

Definition set_peerSignal (v : option string) (o : GRTC) : GRTC :=
  {| peer := peer o; peerSignal := v; signalInstance := signalInstance o;
     joinee := joinee o; reload := reload o; url := url o; grtcID := grtcID o;
     otherPeers := otherPeers o; listenSignalTimer := listenSignalTimer o;
     listenSignalCount := listenSignalCount o; keys := keys o;
     on_peerFound := on_peerFound o; on_publicKey := on_publicKey o;
     handshake_settled := handshake_settled o; intervals := intervals o;
     next_handle := next_handle o; pending_getSignal := pending_getSignal o;
     pending_updateSignal := pending_updateSignal o;
     pending_generateKeys := pending_generateKeys o;
     transport := transport o |}.

Definition set_signalInstance (v : option Signal) (o : GRTC) : GRTC :=
  {| peer := peer o; peerSignal := peerSignal o; signalInstance := v;
     joinee := joinee o; reload := reload o; url := url o; grtcID := grtcID o;
     otherPeers := otherPeers o; listenSignalTimer := listenSignalTimer o;
     listenSignalCount := listenSignalCount o; keys := keys o;
     on_peerFound := on_peerFound o; on_publicKey := on_publicKey o;
     handshake_settled := handshake_settled o; intervals := intervals o;
     next_handle := next_handle o; pending_getSignal := pending_getSignal o;
     pending_updateSignal := pending_updateSignal o;
     pending_generateKeys := pending_generateKeys o;
     transport := transport o |}.

Definition set_otherPeers (v : list string) (o : GRTC) : GRTC :=
  {| peer := peer o; peerSignal := peerSignal o;
     signalInstance := signalInstance o; joinee := joinee o;
     reload := reload o; url := url o; grtcID := grtcID o; otherPeers := v;
     listenSignalTimer := listenSignalTimer o;
     listenSignalCount := listenSignalCount o; keys := keys o;
     on_peerFound := on_peerFound o; on_publicKey := on_publicKey o;
     handshake_settled := handshake_settled o; intervals := intervals o;
     next_handle := next_handle o; pending_getSignal := pending_getSignal o;
     pending_updateSignal := pending_updateSignal o;
     pending_generateKeys := pending_generateKeys o;
     transport := transport o |}.

Definition set_listenSignalTimer (v : nat) (o : GRTC) : GRTC :=
  {| peer := peer o; peerSignal := peerSignal o;
     signalInstance := signalInstance o; joinee := joinee o;
     reload := reload o; url := url o; grtcID := grtcID o;
     otherPeers := otherPeers o; listenSignalTimer := v;
     listenSignalCount := listenSignalCount o; keys := keys o;
     on_peerFound := on_peerFound o; on_publicKey := on_publicKey o;
     handshake_settled := handshake_settled o; intervals := intervals o;
     next_handle := next_handle o; pending_getSignal := pending_getSignal o;
     pending_updateSignal := pending_updateSignal o;
     pending_generateKeys := pending_generateKeys o;
     transport := transport o |}.

Definition set_listenSignalCount (v : nat) (o : GRTC) : GRTC :=
  {| peer := peer o; peerSignal := peerSignal o;
     signalInstance := signalInstance o; joinee := joinee o;
     reload := reload o; url := url o; grtcID := grtcID o;
     otherPeers := otherPeers o; listenSignalTimer := listenSignalTimer o;
     listenSignalCount := v; keys := keys o; on_peerFound := on_peerFound o;
     on_publicKey := on_publicKey o; handshake_settled := handshake_settled o;
     intervals := intervals o; next_handle := next_handle o;
     pending_getSignal := pending_getSignal o;
     pending_updateSignal := pending_updateSignal o;
     pending_generateKeys := pending_generateKeys o;
     transport := transport o |}.

Definition set_keys (v : option Keys) (o : GRTC) : GRTC :=
  {| peer := peer o; peerSignal := peerSignal o;
     signalInstance := signalInstance o; joinee := joinee o;
     reload := reload o; url := url o; grtcID := grtcID o;
     otherPeers := otherPeers o; listenSignalTimer := listenSignalTimer o;
     listenSignalCount := listenSignalCount o; keys := v;
     on_peerFound := on_peerFound o; on_publicKey := on_publicKey o;
     handshake_settled := handshake_settled o; intervals := intervals o;
     next_handle := next_handle o; pending_getSignal := pending_getSignal o;
     pending_updateSignal := pending_updateSignal o;
     pending_generateKeys := pending_generateKeys o;
     transport := transport o |}.

Definition set_on_peerFound (v : list PeerFoundListener) (o : GRTC) : GRTC :=
  {| peer := peer o; peerSignal := peerSignal o;
     signalInstance := signalInstance o; joinee := joinee o;
     reload := reload o; url := url o; grtcID := grtcID o;
     otherPeers := otherPeers o; listenSignalTimer := listenSignalTimer o;
     listenSignalCount := listenSignalCount o; keys := keys o;
     on_peerFound := v; on_publicKey := on_publicKey o;
     handshake_settled := handshake_settled o; intervals := intervals o;
     next_handle := next_handle o; pending_getSignal := pending_getSignal o;
     pending_updateSignal := pending_updateSignal o;
     pending_generateKeys := pending_generateKeys o;
     transport := transport o |}.

Definition set_on_publicKey (v : nat) (o : GRTC) : GRTC :=
  {| peer := peer o; peerSignal := peerSignal o;
     signalInstance := signalInstance o; joinee := joinee o;
     reload := reload o; url := url o; grtcID := grtcID o;
     otherPeers := otherPeers o; listenSignalTimer := listenSignalTimer o;
     listenSignalCount := listenSignalCount o; keys := keys o;
     on_peerFound := on_peerFound o; on_publicKey := v;
     handshake_settled := handshake_settled o; intervals := intervals o;
     next_handle := next_handle o; pending_getSignal := pending_getSignal o;
     pending_updateSignal := pending_updateSignal o;
     pending_generateKeys := pending_generateKeys o;
     transport := transport o |}.

Definition set_handshake_settled (v : bool) (o : GRTC) : GRTC :=
  {| peer := peer o; peerSignal := peerSignal o;
     signalInstance := signalInstance o; joinee := joinee o;
     reload := reload o; url := url o; grtcID := grtcID o;
     otherPeers := otherPeers o; listenSignalTimer := listenSignalTimer o;
     listenSignalCount := listenSignalCount o; keys := keys o;
     on_peerFound := on_peerFound o; on_publicKey := on_publicKey o;
     handshake_settled := v; intervals := intervals o;
     next_handle := next_handle o; pending_getSignal := pending_getSignal o;
     pending_updateSignal := pending_updateSignal o;
     pending_generateKeys := pending_generateKeys o;
     transport := transport o |}.

Definition set_intervals (v : list nat) (o : GRTC) : GRTC :=
  {| peer := peer o; peerSignal := peerSignal o;
     signalInstance := signalInstance o; joinee := joinee o;
     reload := reload o; url := url o; grtcID := grtcID o;
     otherPeers := otherPeers o; listenSignalTimer := listenSignalTimer o;
     listenSignalCount := listenSignalCount o; keys := keys o;
     on_peerFound := on_peerFound o; on_publicKey := on_publicKey o;
     handshake_settled := handshake_settled o; intervals := v;
     next_handle := next_handle o; pending_getSignal := pending_getSignal o;
     pending_updateSignal := pending_updateSignal o;
     pending_generateKeys := pending_generateKeys o;
     transport := transport o |}.

Definition set_next_handle (v : nat) (o : GRTC) : GRTC :=
  {| peer := peer o; peerSignal := peerSignal o;
     signalInstance := signalInstance o; joinee := joinee o;
     reload := reload o; url := url o; grtcID := grtcID o;
     otherPeers := otherPeers o; listenSignalTimer := listenSignalTimer o;
     listenSignalCount := listenSignalCount o; keys := keys o;
     on_peerFound := on_peerFound o; on_publicKey := on_publicKey o;
     handshake_settled := handshake_settled o; intervals := intervals o;
     next_handle := v; pending_getSignal := pending_getSignal o;
     pending_updateSignal := pending_updateSignal o;
     pending_generateKeys := pending_generateKeys o;
     transport := transport o |}.

Definition set_pending_getSignal (v : nat) (o : GRTC) : GRTC :=
  {| peer := peer o; peerSignal := peerSignal o;
     signalInstance := signalInstance o; joinee := joinee o;
     reload := reload o; url := url o; grtcID := grtcID o;
     otherPeers := otherPeers o; listenSignalTimer := listenSignalTimer o;
     listenSignalCount := listenSignalCount o; keys := keys o;
     on_peerFound := on_peerFound o; on_publicKey := on_publicKey o;
     handshake_settled := handshake_settled o; intervals := intervals o;
     next_handle := next_handle o; pending_getSignal := v;
     pending_updateSignal := pending_updateSignal o;
     pending_generateKeys := pending_generateKeys o;
     transport := transport o |}.

Definition set_pending_updateSignal (v : nat) (o : GRTC) : GRTC :=
  {| peer := peer o; peerSignal := peerSignal o;
     signalInstance := signalInstance o; joinee := joinee o;
     reload := reload o; url := url o; grtcID := grtcID o;
     otherPeers := otherPeers o; listenSignalTimer := listenSignalTimer o;
     listenSignalCount := listenSignalCount o; keys := keys o;
     on_peerFound := on_peerFound o; on_publicKey := on_publicKey o;
     handshake_settled := handshake_settled o; intervals := intervals o;
     next_handle := next_handle o; pending_getSignal := pending_getSignal o;
     pending_updateSignal := v;
     pending_generateKeys := pending_generateKeys o;
     transport := transport o |}.

Definition set_pending_generateKeys (v : nat) (o : GRTC) : GRTC :=
  {| peer := peer o; peerSignal := peerSignal o;
     signalInstance := signalInstance o; joinee := joinee o;
     reload := reload o; url := url o; grtcID := grtcID o;
     otherPeers := otherPeers o; listenSignalTimer := listenSignalTimer o;
     listenSignalCount := listenSignalCount o; keys := keys o;
     on_peerFound := on_peerFound o; on_publicKey := on_publicKey o;
     handshake_settled := handshake_settled o; intervals := intervals o;
     next_handle := next_handle o; pending_getSignal := pending_getSignal o;
     pending_updateSignal := pending_updateSignal o;
     pending_generateKeys := v; transport := transport o |}.

Definition set_transport (v : Transport) (o : GRTC) : GRTC :=
  {| peer := peer o; peerSignal := peerSignal o;
     signalInstance := signalInstance o; joinee := joinee o;
     reload := reload o; url := url o; grtcID := grtcID o;
     otherPeers := otherPeers o; listenSignalTimer := listenSignalTimer o;
     listenSignalCount := listenSignalCount o; keys := keys o;
     on_peerFound := on_peerFound o; on_publicKey := on_publicKey o;
     handshake_settled := handshake_settled o; intervals := intervals o;
     next_handle := next_handle o; pending_getSignal := pending_getSignal o;
     pending_updateSignal := pending_updateSignal o;
     pending_generateKeys := pending_generateKeys o; transport := v |}.

(** ** Effects *)

(** The three requests of [class Signal]; the URL of the last two ends in
    [btoa(JSON.stringify(signalID))]. *)
Inductive Request : Type :=
| get_request (url grtcID : string)
| set_request (url grtcID : string) (signalID : option string)
| set_force_request (url grtcID : string) (signalID : option string).

Inductive Emitted : Type :=
| peerFound_event (signal : string)
| peerSignal_event (data : string)
| peerConnected_event
| publicKey_event (key : JSValue)
| peerData_event (parsedData : JSValue).

Inductive Effect : Type :=
| Emit (e : Emitted)                   (* self.emit(name, argument) *)
| NewPeer (options : Peer)             (* new Peer(options) *)
| PeerSignal (signal : string)         (* self.peer.signal(signal) *)
| PeerSend (data : JSValue)            (* self.peer.send(JSON.stringify(data)) *)
| Ajax (r : Request)                   (* $.get(url, ...) *)
| SetInterval (handle delay : nat)     (* setInterval(callback, delay) *)
| GenerateKeys.                        (* crypto.generateKeys() *)

(** ** The monad of the methods: state, effects, exceptions *)

Inductive Outcome (A : Type) : Type :=
| Return (a : A)
| Throw (e : JSError).
Arguments Return {A} a.
Arguments Throw {A} e.

Record Result (A : Type) : Type := {
  outcome : Outcome A;
  final : GRTC;
  effects : list Effect
}.
Arguments outcome {A} r.
Arguments final {A} r.
Arguments effects {A} r.

Definition M (A : Type) : Type := GRTC → Result A.

Definition ret {A} (a : A) : M A :=
  λ o, {| outcome := Return a; final := o; effects := [] |}.

Definition bind {A B} (m : M A) (k : A → M B) : M B :=
  λ o,
    match m o with
    | {| outcome := Return a; final := o1; effects := tr1 |} =>
        match k a o1 with
        | {| outcome := out; final := o2; effects := tr2 |} =>
            {| outcome := out; final := o2; effects := tr1 ++ tr2 |}
        end
    | {| outcome := Throw e; final := o1; effects := tr1 |} =>
        {| outcome := Throw e; final := o1; effects := tr1 |}
    end.

Declare Scope method_scope.
Notation "x ← m ; k" := (bind m (λ x, k))
  (at level 20, m at level 100, k at level 200, only parsing) : method_scope.
Notation "m ;; k" := (bind m (λ _, k))
  (at level 100, k at level 200, only parsing, right associativity)
  : method_scope.
Open Scope method_scope.

Definition read {A} (f : GRTC → A) : M A :=
  λ o, {| outcome := Return (f o); final := o; effects := [] |}.

Definition update (f : GRTC → GRTC) : M unit :=
  λ o, {| outcome := Return (); final := f o; effects := [] |}.

Definition perform (e : Effect) : M unit :=
  λ o, {| outcome := Return (); final := o; effects := [e] |}.

Definition throw {A} (e : JSError) : M A :=
  λ o, {| outcome := Throw e; final := o; effects := [] |}.

(** [set.forEach(callback)] and the call of a list of listeners. *)
Fixpoint forEach {A} (s : list A) (callback : A → M unit) : M unit :=
  match s with
  | [] => ret ()
  | x :: s' => callback x;; forEach s' callback
  end.

(** ** [class Signal] *)

(** [getSignal()]; the promise it returns is settled by a later event. *)
Definition getSignal (self : Signal) : M unit :=
  perform (Ajax (get_request (sig_url self) (sig_grtcID self)));;
  update (λ o, set_pending_getSignal (S (pending_getSignal o)) o).

(** [updateSignal()] *)
Definition updateSignal (self : Signal) : M unit :=
  perform (Ajax (set_request (sig_url self) (sig_grtcID self) (signalID self)));;
  update (λ o, set_pending_updateSignal (S (pending_updateSignal o)) o).

(** [clearSignal()]; no method of [GRTC] calls it. *)
Definition clearSignal (self : Signal) : M unit :=
  perform
    (Ajax (set_force_request (sig_url self) (sig_grtcID self) (signalID self))).

(** ** The transport

    The two methods of the peer of [simple-peer] that the class calls.  The
    library is not part of [src/]; what is kept of it is when these calls
    throw, as the library documents it. *)

(** The state of a peer that has taken a blob. *)
Definition signalled (t : Transport) : Transport :=
  match t with
  | transport_new => transport_negotiating
  | _ => t
  end.

(** [peer.signal(signal)]: the effect is the call; a destroyed peer throws
    (cannot signal after peer is destroyed). *)
Definition Peer_signal (signal : string) : M unit :=
  perform (PeerSignal signal);;
  t ← read transport;
  match t with
  | transport_destroyed => throw PeerError
  | _ => update (set_transport (signalled t))
  end.

(** [peer.send(JSON.stringify(data))]: the effect is the call; only a
    connected peer has an open channel to write to, any other throws. *)
Definition Peer_send (data : JSValue) : M unit :=
  perform (PeerSend data);;
  t ← read transport;
  match t with
  | transport_connected => ret ()
  | _ => throw PeerError
  end.

(** ** [class GRTC] *)

(** One listener of ['peerFound'] called with [signal]. *)
Definition call_peerFound_listener (signal : string) (l : PeerFoundListener)
  : M unit :=
  match l with
  | feed_transport =>
      p ← read peer;
      match p with
      | None => throw TypeError
      | Some _ => Peer_signal signal
      end
  | start_key_exchange =>
      perform GenerateKeys;;
      update (λ o, set_pending_generateKeys (S (pending_generateKeys o)) o)
  end.

(** [self.emit(name, argument)]: the effect is the call, and it stands for
    the listeners of the application, which are taken to return; the
    listeners that the class has registered are called in the order of
    their registration.  The exception of a listener leaves [emit], and the
    listeners after it are not called.  The listener of ['publicKey'] that
    [securityHandler] registers has an empty body. *)
Definition emit (e : Emitted) : M unit :=
  perform (Emit e);;
  match e with
  | peerFound_event signal =>
      listeners ← read on_peerFound;
      forEach listeners (call_peerFound_listener signal)
  | _ => ret ()
  end.

(** [listenSignalRoutine()] up to the request. *)
Definition listenSignalRoutine : M unit :=
  instance ← read signalInstance;
  match instance with
  | None => throw TypeError
  | Some instance => getSignal instance
  end.

(** The callback that [listenSignalRoutine_then] passes to [forEach]: the
    blob is added to [otherPeers] when [emit] has returned. *)
Definition listenSignalRoutine_forEach (signal : string) : M unit :=
  held ← read peerSignal;
  if decide (signal ≠ JSON_stringify held) then
    emit (peerFound_event signal);;
    update (λ o, set_otherPeers (JSSet.add (otherPeers o) signal) o)
  else ret ().

(** The callback that [listenSignalRoutine] passes to [then]. *)
Definition listenSignalRoutine_then (resp : list string) : M unit :=
  seen ← read otherPeers;
  forEach (setDifference (JSSet.of_iterable resp) seen)
    listenSignalRoutine_forEach.

(** [setInterval(callback, delay)]: a handle that is not in use.  Which
    handle it is, is the host's choice; the model numbers them from 1.  The
    numbers show in the examples; no general property is about them. *)
Definition setInterval (delay : nat) : M nat :=
  handle ← read next_handle;
  update (λ o, set_next_handle (S handle) (set_intervals (intervals o ++ [handle]) o));;
  perform (SetInterval handle delay);;
  ret handle.

(** [listenSignal()] *)
Definition listenSignal : M unit :=
  listenSignalRoutine;;
  handle ← setInterval 5000;
  update (set_listenSignalTimer handle).

(** The callback that [listenSignal] passes to [setInterval]. *)
Definition listenSignal_interval : M unit :=
  update (λ o, set_listenSignalCount (S (listenSignalCount o)) o);;
  listenSignalRoutine.

(** [peerHandler()]: the body of the promise.  The four listeners on the
    peer are the handlers [peer_on_signal], [peer_on_connect] and
    [peer_on_data] below. *)
Definition peerHandler : M unit :=
  j ← read joinee;
  let options := {| initiator := bool_decide (j = true); trickle := false |} in
  perform (NewPeer options);;
  update (set_peer (Some options));;
  update (λ o, set_on_peerFound (on_peerFound o ++ [feed_transport]) o).

(** [self.send(data)], as [peerHandler] defines it. *)
Definition send (data : JSValue) : M unit :=
  p ← read peer;
  match p with
  | None => throw TypeError
  | Some _ => Peer_send data
  end.

(** [securityHandler()] *)
Definition securityHandler : M unit :=
  update (λ o, set_on_peerFound (on_peerFound o ++ [start_key_exchange]) o);;
  update (λ o, set_on_publicKey (S (on_publicKey o)) o).

(** The callback that the ['peerFound'] listener of [securityHandler]
    passes to [then]. *)
Definition generateKeys_then (generated : Keys) : M unit :=
  update (set_keys (Some generated));;
  let payload := JObject [("publicKey", JString (publicKey generated))] in
  p ← read peer;
  match p with
  | None => throw TypeError
  | Some _ => Peer_send payload
  end.

(** The callback that [init] passes to [peerHandler().then]. *)
Definition init_then : M unit :=
  u ← read url;
  g ← read grtcID;
  s ← read peerSignal;
  let instance := {| sig_url := u; sig_grtcID := g; signalID := s |} in
  update (set_signalInstance (Some instance));;
  updateSignal instance.

(** The callback that [init_then] passes to [updateSignal().then]. *)
Definition updateSignal_then : M unit :=
  listenSignal;;
  securityHandler.

(** A turn with one ['signal'] event of the peer: its two listeners, then,
    when the first of them settled the promise of [peerHandler], the
    callback that waits for it (a promise is settled once, and the callback
    reads [peerSignal] when it runs, at the end of the turn). *)
Definition peer_on_signal (data : string) : M unit :=
  settled ← read handshake_settled;
  update (set_peerSignal (Some data));;
  update (set_handshake_settled true);;
  emit (peerSignal_event data);;
  if settled then ret () else init_then.

(** The listener of the ['connect'] event of the peer. *)
Definition peer_on_connect : M unit :=
  emit peerConnected_event.

(** [init()] *)
Definition init : M unit :=
  j ← read joinee;
  (if bool_decide (j = false) then
     u ← read url;
     g ← read grtcID;
     s ← read peerSignal;
     update (set_signalInstance
               (Some {| sig_url := u; sig_grtcID := g; signalID := s |}));;
     listenSignal
   else ret ());;
  peerHandler.

(** [new GRTC(grtcID, url, joinee, reload)] *)
Definition constructor (grtcID url : string) (joinee reload : bool)
  : Result unit :=
  init {| peer := None; peerSignal := None; signalInstance := None;
          joinee := joinee; reload := reload; url := url; grtcID := grtcID;
          otherPeers := []; listenSignalTimer := 0; listenSignalCount := 0;
          keys := None; on_peerFound := []; on_publicKey := 0;
          handshake_settled := false; intervals := []; next_handle := 1;
          pending_getSignal := 0; pending_updateSignal := 0;
          pending_generateKeys := 0; transport := transport_new |}.

(** ** The event loop *)

(** What the environment can do to a session: the events of the peer, the
    timers, the settling of the promises, the one call that the class
    hands out to the application, and the end of the transport, for which
    the class registers no listener. *)
Inductive Event : Type :=
| peer_signal (data : string)
| peer_connect
| peer_data (data : string)
| interval_fires (handle : nat)
| getSignal_resolved (resp : list string)
| getSignal_rejected
| updateSignal_resolved
| updateSignal_rejected
| generateKeys_resolved (generated : Keys)
| generateKeys_rejected
| call_send (data : JSValue)
| peer_close.

(** The events that can occur in a state.  A destroyed peer emits nothing;
    a peer connects once it has the blob of the other side; and it is the
    negotiation or the connection that fails or is closed.  The end of a
    peer that has taken no blob is left out: the peer of a joinee does
    nothing before it has the offer, and an initiator whose peer fails
    before its offer is there neither publishes nor polls. *)
Definition enabled (o : GRTC) (ev : Event) : bool :=
  match ev with
  | peer_signal _ | peer_data _ =>
      bool_decide (is_Some (peer o) ∧ transport o ≠ transport_destroyed)
  | peer_connect =>
      bool_decide (is_Some (peer o) ∧ transport o = transport_negotiating)
  | peer_close =>
      bool_decide (is_Some (peer o) ∧
                   (transport o = transport_negotiating ∨
                    transport o = transport_connected))
  | call_send _ => bool_decide (is_Some (peer o))
  | interval_fires handle => bool_decide (handle ∈ intervals o)
  | getSignal_resolved _ | getSignal_rejected =>
      bool_decide (0 < pending_getSignal o)
  | updateSignal_resolved | updateSignal_rejected =>
      bool_decide (0 < pending_updateSignal o)
  | generateKeys_resolved _ | generateKeys_rejected =>
      bool_decide (0 < pending_generateKeys o)
  end.

Section with_JSON_parse.

(** [JSON.parse(text)]; [None] is the [SyntaxError] that it throws. *)
Variable JSON_parse : string → option JSValue.

(** [dataHandler(data)] *)
Definition dataHandler (data : string) : M unit :=
  match JSON_parse data with
  | None => throw SyntaxError
  | Some parsedData =>
      match in_publicKey parsedData with
      | None => throw TypeError
      | Some true => emit (publicKey_event (get_publicKey parsedData))
      | Some false => emit (peerData_event parsedData)
      end
  end.

(** The listener of the ['data'] event of the peer. *)
Definition peer_on_data (data : string) : M unit :=
  dataHandler data.

(** The callback that an event runs, after what the event does to the
    promise it settles or to the transport. *)
Definition handle (ev : Event) : M unit :=
  match ev with
  | peer_signal data => peer_on_signal data
  | peer_connect =>
      update (set_transport transport_connected);;
      peer_on_connect
  | peer_data data => peer_on_data data
  | interval_fires _ => listenSignal_interval
  | getSignal_resolved resp =>
      update (λ o, set_pending_getSignal (pred (pending_getSignal o)) o);;
      listenSignalRoutine_then resp
  | getSignal_rejected =>
      update (λ o, set_pending_getSignal (pred (pending_getSignal o)) o)
  | updateSignal_resolved =>
      update (λ o, set_pending_updateSignal (pred (pending_updateSignal o)) o);;
      updateSignal_then
  | updateSignal_rejected =>
      update (λ o, set_pending_updateSignal (pred (pending_updateSignal o)) o)
  | generateKeys_resolved generated =>
      update (λ o, set_pending_generateKeys (pred (pending_generateKeys o)) o);;
      generateKeys_then generated
  | generateKeys_rejected =>
      update (λ o, set_pending_generateKeys (pred (pending_generateKeys o)) o)
  | call_send data => send data
  | peer_close => update (set_transport transport_destroyed)
  end.

(** A run of the event loop from state [o] with the effects [tr] so far;
    [None] when an event of the list cannot occur where it stands.  An
    exception ends the callback that threw it and nothing else. *)
Fixpoint run (evs : list Event) (o : GRTC) (tr : list Effect)
  : option (GRTC * list Effect) :=
  match evs with
  | [] => Some (o, tr)
  | ev :: evs' =>
      if enabled o ev then
        let r := handle ev o in
        run evs' (final r) (tr ++ effects r)
      else None
  end.

(** Whether every local signal of the run is the first one of the session
    and is not in [otherPeers] when the transport delivers it. *)
Fixpoint signals_fresh (evs : list Event) (o : GRTC) : bool :=
  match evs with
  | [] => true
  | ev :: evs' =>
      match ev with
      | peer_signal data =>
          bool_decide (peerSignal o = None ∧ data ∉ otherPeers o)
      | _ => true
      end
      && signals_fresh evs' (final (handle ev o))
  end.

(** A session: the constructor, then the events. *)
Definition session (grtcID url : string) (joinee reload : bool)
  (evs : list Event) : option (GRTC * list Effect) :=
  let r := constructor grtcID url joinee reload in
  run evs (final r) (effects r).

End with_JSON_parse.

(** ** Observations on a trace of effects *)

(** The blobs of the ['peerFound'] events of a trace, in order. *)
Definition found (tr : list Effect) : list string :=
  omap (λ e, match e with Emit (peerFound_event s) => Some s | _ => None end) tr.

(** The requests of a trace, in order. *)
Definition requests (tr : list Effect) : list Request :=
  omap (λ e, match e with Ajax r => Some r | _ => None end) tr.




(** The blobs that a trace publishes with [updateSignal], in order. *)
Definition published (tr : list Effect) : list (option string) :=
  omap (λ e, match e with Ajax (set_request _ _ s) => Some s | _ => None end) tr.

(** The number of calls of [crypto.generateKeys()] in a trace. *)
Definition key_generations (tr : list Effect) : nat :=
  length (omap (λ e, match e with GenerateKeys => Some () | _ => None end) tr).



(** What one listener of ['peerFound'] does with [signal], and what the
    emission of ['peerFound'] with [signal] does as a whole. *)
Definition listener_effect (signal : string) (l : PeerFoundListener) : Effect :=
  match l with
  | feed_transport => PeerSignal signal
  | start_key_exchange => GenerateKeys
  end.

Definition peerFound_effects (listeners : list PeerFoundListener)
  (signal : string) : list Effect :=
  Emit (peerFound_event signal) :: map (listener_effect signal) listeners.

#[global] Instance PeerFoundListener_eq_dec : EqDecision PeerFoundListener.
Proof. solve_decision. Defined.

(** The number of listeners of ['peerFound'] that start a key exchange. *)
Definition key_exchange_listeners (o : GRTC) : nat :=
  length (filter (λ l, l = start_key_exchange) (on_peerFound o)).

(** The blobs that the response [resp] of a poll makes the session emit. *)
Definition poll_news (resp : list string) (o : GRTC) : list string :=
  filter (λ s, s ≠ JSON_stringify (peerSignal o))
    (setDifference (JSSet.of_iterable resp) (otherPeers o)).

(** What the response [resp] of a poll does in state [o]: the blobs that
    are emitted, those that are added to [otherPeers], the effects, the
    state of the transport and the outcome of the callback.  On a peer that
    is destroyed the first blob is emitted, [peer.signal] throws, and the
    exception ends the callback. *)
Definition poll_found (resp : list string) (o : GRTC) : list string :=
  match transport o with
  | transport_destroyed => take 1 (poll_news resp o)
  | _ => poll_news resp o
  end.

Definition poll_seen (resp : list string) (o : GRTC) : list string :=
  match transport o with
  | transport_destroyed => []
  | _ => poll_news resp o
  end.

Definition poll_effects (resp : list string) (o : GRTC) : list Effect :=
  match transport o with
  | transport_destroyed =>
      take 1 (poll_news resp o)
        ≫= λ s, [Emit (peerFound_event s); PeerSignal s]
  | _ => poll_news resp o ≫= peerFound_effects (on_peerFound o)
  end.

Definition poll_transport (resp : list string) (o : GRTC) : Transport :=
  match poll_news resp o with
  | [] => transport o
  | _ => signalled (transport o)
  end.

Definition poll_outcome (resp : list string) (o : GRTC) : Outcome unit :=
  match transport o, poll_news resp o with
  | transport_destroyed, _ :: _ => Throw PeerError
  | _, _ => Return ()
  end.

(** ** Invariants of a session *)

(** There is a transport, and the first listener of ['peerFound'] is the
    one that feeds it. *)
Definition wired (o : GRTC) : Prop :=
  is_Some (peer o) ∧ head (on_peerFound o) = Some feed_transport.

(** [otherPeers] holds the blobs that were emitted while the transport took
    them, each once; what was emitted after that is not in [otherPeers].
    A transport that has taken no blob is new. *)
Definition seen_is_found (o : GRTC) (tr : list Effect) : Prop :=
  wired o ∧ NoDup (otherPeers o) ∧
  (∃ again,
     found tr = otherPeers o ++ again ∧
     (∀ s, s ∈ again → s ∉ otherPeers o) ∧
     (transport o ≠ transport_destroyed → again = [])) ∧
  (otherPeers o = [] → transport o = transport_new).


(** A timer is set only once there is a [Signal] to poll with, and that
    [Signal] is for the room and the server of the session. *)
Definition polling_state (g u : string) (o : GRTC) : Prop :=
  wired o ∧ url o = u ∧ grtcID o = g ∧
  match signalInstance o with
  | Some instance => sig_url instance = u ∧ sig_grtcID instance = g
  | None => intervals o = []
  end.

(** What was published is the signal that is held, and it is not in
    [otherPeers]. *)
Definition own_blob_unseen (o : GRTC) (tr : list Effect) : Prop :=
  wired o ∧
  (JSON_stringify (peerSignal o) ∉ otherPeers o) ∧
  ∀ s, s ∈ published tr → s = peerSignal o ∧ is_Some s.

(** ** Examples *)

(** [JSON.parse] on the texts of the examples: two texts that are JSON and,
    for every other text of the examples, the [SyntaxError]. *)
Definition JSON_parse_sample (text : string) : option JSValue :=
  if decide (text = "{}") then Some (JObject [])
  else if decide (text = "[]") then Some (JArray [])
  else None.

(** ** Tactics *)

(** Unfold the methods and the monad down to the record of the result. *)
Ltac unfold_methods :=
  cbv beta iota zeta delta
    [ handle peer_on_signal peer_on_connect peer_on_data dataHandler
      listenSignal_interval updateSignal_then generateKeys_then send
      init_then listenSignal listenSignalRoutine securityHandler
      setInterval getSignal updateSignal emit peerHandler init constructor
      Peer_signal Peer_send bind ret read update perform throw ];
  simpl.

(** Split on what the result still waits for: a field of the state, the
    result of [parse], the test for the reserved field. *)
Ltac case_stuck parse :=
  repeat (match goal with
          | |- context [match ?x with _ => _ end] => is_var x; destruct x
          | |- context [match parse ?d with _ => _ end] => destruct (parse d)
          | |- context [match in_publicKey ?v with _ => _ end] =>
              destruct (in_publicKey v) as [[]|]
          end; simpl).

(** ** JavaScript strings

    A string is the list of its code units; the code units of the model are
    the characters of [ascii]. *)

Module JSString.

(** The code units of a string, and back. *)
Definition chars (s : string) : list ascii := String.list_ascii_of_string s.
Definition of_chars (cs : list ascii) : string := String.string_of_list_ascii cs.

(** The position of the first occurrence of [search] in [cs], counted from
    [i] at the head of [cs]. *)
Fixpoint search_from (cs search : list ascii) (i : nat) : option nat :=
  if bool_decide (search `prefix_of` cs) then Some i
  else match cs with
       | [] => None
       | _ :: cs' => search_from cs' search (S i)
       end.

(** [s.indexOf(search)] *)
Definition indexOf (s search : string) : Z :=
  match search_from (chars s) (chars search) 0 with
  | Some i => Z.of_nat i
  | None => (-1)%Z
  end.

(** An argument of [substring] brought into the range of the positions. *)
Definition clamp (n : Z) (len : nat) : nat :=
  Z.to_nat (Z.min (Z.max n 0) (Z.of_nat len)).

(** [s.substring(indexStart, indexEnd)] *)
Definition substring (s : string) (indexStart indexEnd : Z) : string :=
  let cs := chars s in
  let a := clamp indexStart (length cs) in
  let b := clamp indexEnd (length cs) in
  of_chars (take (max a b - min a b) (drop (min a b) cs)).

Fixpoint split_chars (sep : ascii) (cs : list ascii) : list (list ascii) :=
  match cs with
  | [] => [[]]
  | c :: cs' =>
      if decide (c = sep) then [] :: split_chars sep cs'
      else match split_chars sep cs' with
           | seg :: segs => (c :: seg) :: segs
           | [] => [[c]]
           end
  end.

(** [s.split(separator)] for a separator of one character. *)
Definition split (s : string) (separator : ascii) : list string :=
  of_chars <$> split_chars separator (chars s).

End JSString.

(** ** [GRTC.queryParameter] *)

(** [array.pop()], the value it returns; [None] is [undefined]. *)
Definition pop {A} (array : list A) : option A := last array.

(** [GRTC.queryParameter(queryString)] *)
Definition queryParameter (queryString : string) : option string :=
  let queryIndex := JSString.indexOf queryString "collaborate" in
  pop (JSString.split
         (JSString.substring queryString queryIndex (queryIndex + 48))
         "=").


(** [search] occurs in [s]. *)
Definition occurs_in (search s : string) : Prop :=
  ∃ a b, s = a +:+ search +:+ b.

(** The first [n] characters of [s]. *)
Definition first_chars (n : nat) (s : string) : string :=
  JSString.of_chars (take n (JSString.chars s)).

(** ** Observations on the events and on the rest of a trace *)

(** The local signals that the transport hands over, in order. *)
Definition local_signals (evs : list Event) : list string :=
  omap (λ ev, match ev with peer_signal data => Some data | _ => None end) evs.

(** How often the store has acknowledged, and how often it has refused, a
    publication. *)
Definition acknowledged (evs : list Event) : nat :=
  length (omap (λ ev, match ev with
                      | updateSignal_resolved => Some ()
                      | _ => None
                      end) evs).

Definition refused (evs : list Event) : nat :=
  length (omap (λ ev, match ev with
                      | updateSignal_rejected => Some ()
                      | _ => None
                      end) evs).

(** How often a timer has fired. *)
Definition ticks (evs : list Event) : nat :=
  length (omap (λ ev, match ev with
                      | interval_fires _ => Some ()
                      | _ => None
                      end) evs).

(** The key pairs that [crypto.generateKeys()] has delivered, in order. *)
Definition generated_keys (evs : list Event) : list Keys :=
  omap (λ ev, match ev with
              | generateKeys_resolved generated => Some generated
              | _ => None
              end) evs.

(** What the events ask the session to send: the data of the calls of
    [send], and one message with the public key for each key pair. *)
Definition outgoing (evs : list Event) : list JSValue :=
  omap (λ ev, match ev with
              | call_send data => Some data
              | generateKeys_resolved generated =>
                  Some (JObject [("publicKey", JString (publicKey generated))])
              | _ => None
              end) evs.

(** The events without the messages of the peer. *)
Definition without_messages (evs : list Event) : list Event :=
  omap (λ ev, match ev with peer_data _ => None | _ => Some ev end) evs.

(** The blobs handed to [peer.signal], in order. *)
Definition fed (tr : list Effect) : list string :=
  omap (λ e, match e with PeerSignal s => Some s | _ => None end) tr.

(** The transports that a trace creates. *)
Definition transports (tr : list Effect) : list Peer :=
  omap (λ e, match e with NewPeer options => Some options | _ => None end) tr.

(** The arguments of the ['peerSignal'] events of a trace, in order. *)
Definition announced (tr : list Effect) : list string :=
  omap (λ e, match e with Emit (peerSignal_event d) => Some d | _ => None end) tr.

(** What a trace hands to [peer.send], in order. *)
Definition sent (tr : list Effect) : list JSValue :=
  omap (λ e, match e with PeerSend data => Some data | _ => None end) tr.

(** The requests of a trace that clear the room by force. *)
Definition forced (tr : list Effect) : list Request :=
  omap (λ e, match e with
             | Ajax (set_force_request u g s) => Some (set_force_request u g s)
             | _ => None
             end) tr.

(** The number of polls of a trace. *)
Definition polls (tr : list Effect) : nat :=
  length (omap (λ e, match e with Ajax (get_request _ _) => Some () | _ => None end) tr).

(** A trace without the events that [dataHandler] emits. *)
Definition without_message_events (tr : list Effect) : list Effect :=
  omap (λ e, match e with
             | Emit (publicKey_event _) | Emit (peerData_event _) => None
             | _ => Some e
             end) tr.

(** ** Invariants of a session, with its events *)

(** The signal that is held, published and announced. *)
Definition handshake_state (hist : list Event) (o : GRTC) (tr : list Effect)
  : Prop :=
  wired o ∧
  handshake_settled o = bool_decide (local_signals hist ≠ []) ∧
  peerSignal o = last (local_signals hist) ∧
  published tr = Some <$> take 1 (local_signals hist) ∧
  announced tr = local_signals hist.

(** The publication under way and the listeners of ['peerFound']. *)
Definition security_state (hist : list Event) (o : GRTC) (tr : list Effect)
  : Prop :=
  wired o ∧
  (0 < pending_updateSignal o → is_Some (signalInstance o)) ∧
  pending_updateSignal o + acknowledged hist + refused hist
  = length (published tr) ∧
  on_peerFound o = feed_transport :: replicate (acknowledged hist) start_key_exchange ∧
  fed tr = found tr ∧
  key_generations tr ≤ length (found tr) * acknowledged hist.

(** The timers and the polls. *)
Definition timers_state (j : bool) (hist : list Event) (o : GRTC)
  (tr : list Effect) : Prop :=
  wired o ∧
  (0 < pending_updateSignal o ∨ 0 < length (intervals o) →
   is_Some (signalInstance o)) ∧
  intervals o = seq 1 (length (intervals o)) ∧
  next_handle o = S (length (intervals o)) ∧
  listenSignalTimer o = length (intervals o) ∧
  length (intervals o) = (if j then 0 else 1) + acknowledged hist ∧
  listenSignalCount o = ticks hist ∧
  (ticks hist = 0 ∨ 0 < length (intervals o)) ∧
  polls tr = ticks hist + length (intervals o).

(** The transport, the requests that are never made, and what the session
    hands to [peer.send]. *)
Definition transport_state (j : bool) (hist : list Event) (o : GRTC)
  (tr : list Effect) : Prop :=
  wired o ∧
  peer o = Some {| initiator := j; trickle := false |} ∧
  transports tr = [{| initiator := j; trickle := false |}] ∧
  forced tr = [] ∧
  sent tr = outgoing hist ∧
  keys o = last (generated_keys hist).

(** The events of a session of the joinee, for the examples: the offer is
    found, the answer is published and acknowledged, both timers fire, a
    third blob is found, a message comes, the application sends, a key pair
    is there, and the transport hands over a second signal. *)
Definition sample_events : list Event :=
  [getSignal_resolved ["offer"]; peer_signal "answer"; updateSignal_resolved;
   interval_fires 1; interval_fires 2;
   getSignal_resolved ["offer"; "answer"; "third"]; peer_data "{}";
   call_send (JString "hello");
   generateKeys_resolved {| publicKey := "P"; privateKey := "S" |};
   peer_signal "answer2"].

(** * Properties *)

(** ** JavaScript [Set] *)

Section JSSet_facts.
Context {A : Type} `{EqDecision A}.
Implicit Types (s l : list A) (x y : A).

Lemma JSSet_elem_of_add s x y : y ∈ JSSet.add s x ↔ y ∈ s ∨ y = x.
Proof.
  unfold JSSet.add, JSSet.has. case_bool_decide as Hx.
  - split; [by left | intros [?| ->]; done].
  - rewrite elem_of_app, list_elem_of_singleton. done.
Qed.

Lemma JSSet_add_fresh s x : x ∉ s → JSSet.add s x = s ++ [x].
Proof. intros Hx. unfold JSSet.add, JSSet.has. by rewrite bool_decide_eq_false_2. Qed.

Lemma JSSet_add_prefix s x : s `prefix_of` JSSet.add s x.
Proof.
  unfold JSSet.add. destruct (JSSet.has s x); [done | by apply prefix_app_r].
Qed.

Lemma JSSet_NoDup_add s x : NoDup s → NoDup (JSSet.add s x).
Proof.
  intros Hs. unfold JSSet.add, JSSet.has. case_bool_decide as Hx; [done|].
  apply NoDup_app. split_and!; [done | | apply NoDup_singleton].
  intros y Hy ->%list_elem_of_singleton. done.
Qed.

Lemma JSSet_elem_of_delete s x y : y ∈ JSSet.delete s x ↔ y ∈ s ∧ y ≠ x.
Proof. unfold JSSet.delete. rewrite list_elem_of_filter. tauto. Qed.

Lemma JSSet_NoDup_delete s x : NoDup s → NoDup (JSSet.delete s x).
Proof. apply NoDup_filter. Qed.

Lemma JSSet_elem_of_foldl_add l s y :
  y ∈ foldl JSSet.add s l ↔ y ∈ s ∨ y ∈ l.
Proof.
  revert s. induction l as [|x l IH]; intros s; simpl.
  - rewrite elem_of_nil. tauto.
  - rewrite IH, JSSet_elem_of_add, elem_of_cons. tauto.
Qed.

Lemma JSSet_NoDup_foldl_add l s : NoDup s → NoDup (foldl JSSet.add s l).
Proof.
  revert s. induction l as [|x l IH]; intros s Hs; simpl; [done|].
  by apply IH, JSSet_NoDup_add.
Qed.

Lemma JSSet_foldl_add_fresh l s :
  NoDup l → (∀ x, x ∈ l → x ∉ s) → foldl JSSet.add s l = s ++ l.
Proof.
  revert s. induction l as [|x l IH]; intros s Hnd Hfresh; simpl.
  - by rewrite app_nil_r.
  - apply NoDup_cons in Hnd as [Hx Hnd].
    rewrite JSSet_add_fresh by (apply Hfresh; left).
    rewrite IH, <- app_assoc; [done | done |].
    intros y Hy. rewrite elem_of_app, list_elem_of_singleton.
    intros [Hs | ->]; [|done]. by apply (Hfresh y); [right|].
Qed.

Lemma JSSet_of_iterable_NoDup l : NoDup l → JSSet.of_iterable l = l.
Proof.
  intros Hnd. unfold JSSet.of_iterable. rewrite JSSet_foldl_add_fresh; [done..|].
  intros x _. apply not_elem_of_nil.
Qed.

Lemma JSSet_elem_of_of_iterable l y : y ∈ JSSet.of_iterable l ↔ y ∈ l.
Proof.
  unfold JSSet.of_iterable. rewrite JSSet_elem_of_foldl_add, elem_of_nil. tauto.
Qed.

Lemma JSSet_NoDup_of_iterable l : NoDup (JSSet.of_iterable l).
Proof. apply JSSet_NoDup_foldl_add, NoDup_nil_2. Qed.

Lemma JSSet_elem_of_foldl_delete l s y :
  y ∈ foldl JSSet.delete s l ↔ y ∈ s ∧ y ∉ l.
Proof.
  revert s. induction l as [|x l IH]; intros s; simpl.
  - rewrite elem_of_nil. tauto.
  - rewrite IH, JSSet_elem_of_delete, not_elem_of_cons. tauto.
Qed.

Lemma JSSet_NoDup_foldl_delete l s :
  NoDup s → NoDup (foldl JSSet.delete s l).
Proof.
  revert s. induction l as [|x l IH]; intros s Hs; simpl; [done|].
  by apply IH, JSSet_NoDup_delete.
Qed.

Lemma elem_of_setDifference (setA setB : list A) x :
  x ∈ setDifference setA setB ↔ x ∈ setA ∧ x ∉ setB.
Proof.
  unfold setDifference.
  rewrite JSSet_elem_of_foldl_delete, JSSet_elem_of_of_iterable. done.
Qed.

Lemma NoDup_setDifference (setA setB : list A) :
  NoDup (setDifference setA setB).
Proof. apply JSSet_NoDup_foldl_delete, JSSet_NoDup_of_iterable. Qed.

End JSSet_facts.

(** ** [setDifference] *)

(** C8. For all sets [A] and [B], an element is in [setDifference A B] if
    and only if it is in [A] and not in [B]; the result is again a set; and
    the operation is not symmetric: for some [A] and [B] the differences
    [setDifference A B] and [setDifference B A] are not the same set. *)
Theorem setDifference_asymmetric_difference :
  (∀ (A B : list string) (x : string),
     (x ∈ setDifference A B ↔ x ∈ A ∧ x ∉ B) ∧
     (JSSet.has (setDifference A B) x = JSSet.has A x && negb (JSSet.has B x)) ∧
     NoDup (setDifference A B)) ∧
  (∃ (A B : list string) (x : string),
     x ∈ setDifference A B ∧ x ∉ setDifference B A).
Proof.
  split.
  - intros A B x. split_and!.
    + apply elem_of_setDifference.
    + unfold JSSet.has. apply eq_true_iff_eq.
      rewrite andb_true_iff, negb_true_iff, bool_decide_eq_false,
        !bool_decide_eq_true.
      apply elem_of_setDifference.
    + apply NoDup_setDifference.
  - exists ["a"; "b"], ["b"; "c"], "a".
    rewrite !elem_of_setDifference, !elem_of_cons, !elem_of_nil.
    split; [split; [by left|] |].
    + intros [?|[?|?]]; done.
    + intros [[?|[?|?]] _]; done.
Qed.

(** ** [setDifference] on set objects *)

Lemma for_of_delete_spec fuel i setB difference (h : gmap nat (list string))
    elemsB elemsD :
  setB ≠ difference →
  h !! setB = Some elemsB →
  h !! difference = Some elemsD →
  length elemsB - i < fuel →
  Store.for_of_delete fuel i setB difference h
  = Some (<[difference := foldl JSSet.delete elemsD (drop i elemsB)]> h).
Proof.
  intros Hne. revert i h elemsD.
  induction fuel as [|fuel IH]; intros i h elemsD HB HD Hlen; simpl.
  - lia.
  - rewrite HB. destruct (elemsB !! i) as [elem|] eqn:Hi.
    + erewrite IH; cycle 1.
      * by rewrite lookup_alter_ne.
      * rewrite lookup_alter_eq, HD. done.
      * apply lookup_lt_Some in Hi. lia.
      * erewrite (drop_S _ _ i) by done. simpl. f_equal.
        apply map_eq. intros l. destruct (decide (l = difference)) as [->|].
        -- by rewrite !lookup_insert_eq.
        -- by rewrite !lookup_insert_ne, lookup_alter_ne.
    + apply lookup_ge_None in Hi. rewrite drop_ge by done. simpl.
      by rewrite insert_id.
Qed.

Lemma setDifference_obj_spec (h : gmap nat (list string)) setA setB
    elemsA elemsB :
  h !! setA = Some elemsA →
  h !! setB = Some elemsB →
  Store.setDifference_obj h setA setB
  = Some (fresh (dom h), <[fresh (dom h) := setDifference elemsA elemsB]> h).
Proof.
  intros HA HB. unfold Store.setDifference_obj, Store.alloc. rewrite HA, HB.
  pose proof (is_fresh (dom h)) as Hfresh. apply not_elem_of_dom in Hfresh.
  erewrite for_of_delete_spec; cycle 1.
  - intros ->. congruence.
  - rewrite lookup_insert_ne by (intros <-; congruence). done.
  - by rewrite lookup_insert_eq.
  - lia.
  - rewrite drop_0, insert_insert_eq. done.
Qed.

(** C10. [setDifference(setA, setB)] returns a set object that did not exist
    before the call, holding the difference, and leaves every object that
    existed before the call as it was, the two arguments among them (also
    when the two arguments are one object). *)
Theorem setDifference_leaves_arguments (h : gmap nat (list string))
    (setA setB : nat) (elemsA elemsB : list string) :
  h !! setA = Some elemsA →
  h !! setB = Some elemsB →
  ∃ (difference : nat) (h' : gmap nat (list string)),
    Store.setDifference_obj h setA setB = Some (difference, h') ∧
    h !! difference = None ∧
    h' !! difference = Some (setDifference elemsA elemsB) ∧
    h' !! setA = Some elemsA ∧
    h' !! setB = Some elemsB ∧
    ∀ r, r ≠ difference → h' !! r = h !! r.
Proof.
  intros HA HB. eexists _, _. split; [by apply setDifference_obj_spec|].
  pose proof (is_fresh (dom h)) as Hfresh. apply not_elem_of_dom in Hfresh.
  split_and!.
  - done.
  - by rewrite lookup_insert_eq.
  - rewrite lookup_insert_ne by (intros <-; congruence). done.
  - rewrite lookup_insert_ne by (intros <-; congruence). done.
  - intros r Hr. by rewrite lookup_insert_ne.
Qed.

Lemma setDifference_leaves_arguments_witness :
  let h : gmap nat (list string) := {[ 0 := ["a"; "b"; "c"]; 1 := ["b"] ]} in
  h !! 0 = Some ["a"; "b"; "c"] ∧
  h !! 1 = Some ["b"] ∧
  ∃ (difference : nat) (h' : gmap nat (list string)),
    Store.setDifference_obj h 0 1 = Some (difference, h') ∧
    h !! difference = None ∧
    h' !! difference = Some (setDifference ["a"; "b"; "c"] ["b"]) ∧
    h' !! 0 = Some ["a"; "b"; "c"] ∧
    h' !! 1 = Some ["b"] ∧
    ∀ r, r ≠ difference → h' !! r = h !! r.
Proof.
  intros h. split; [reflexivity|]. split; [reflexivity|].
  apply (setDifference_leaves_arguments h 0 1); reflexivity.
Defined.

(** ** Traces *)

Lemma found_app tr1 tr2 : found (tr1 ++ tr2) = found tr1 ++ found tr2.
Proof. unfold found. apply omap_app. Qed.


Lemma published_app tr1 tr2 :
  published (tr1 ++ tr2) = published tr1 ++ published tr2.
Proof. unfold published. apply omap_app. Qed.

Lemma key_generations_app tr1 tr2 :
  key_generations (tr1 ++ tr2) = key_generations tr1 + key_generations tr2.
Proof. unfold key_generations. by rewrite omap_app, length_app. Qed.

Lemma found_listener_effects x listeners :
  found (map (listener_effect x) listeners) = [].
Proof. induction listeners as [|[] ls IH]; done. Qed.


Lemma published_listener_effects x listeners :
  published (map (listener_effect x) listeners) = [].
Proof. induction listeners as [|[] ls IH]; done. Qed.

Lemma key_generations_listener_effects x listeners :
  key_generations (map (listener_effect x) listeners)
  = length (filter (λ l, l = start_key_exchange) listeners).
Proof.
  induction listeners as [|[] ls IH]; [done|done|].
  change (S (key_generations (map (listener_effect x) ls))
          = S (length (filter (λ l, l = start_key_exchange) ls))).
  by rewrite IH.
Qed.

Lemma found_peerFound_effects listeners (l : list string) :
  found (l ≫= peerFound_effects listeners) = l.
Proof.
  induction l as [|x l IH]; [done|].
  rewrite bind_cons, found_app, IH. unfold peerFound_effects.
  change (found (Emit (peerFound_event x) :: ?t)) with (x :: found t).
  by rewrite found_listener_effects.
Qed.


Lemma published_peerFound_effects listeners (l : list string) :
  published (l ≫= peerFound_effects listeners) = [].
Proof.
  induction l as [|x l IH]; [done|].
  rewrite bind_cons, published_app, IH. unfold peerFound_effects.
  change (published (Emit ?e :: ?t)) with (published t).
  by rewrite published_listener_effects.
Qed.

Lemma key_generations_peerFound_effects listeners (l : list string) :
  key_generations (l ≫= peerFound_effects listeners)
  = length l * length (filter (λ l, l = start_key_exchange) listeners)%nat.
Proof.
  induction l as [|x l IH]; [done|].
  rewrite bind_cons, key_generations_app, IH. unfold peerFound_effects.
  change (key_generations (Emit ?e :: ?t)) with (key_generations t).
  by rewrite key_generations_listener_effects.
Qed.






(** ** The poll *)

Lemma bind_eq {A B} (m : M A) (k : A → M B) o :
  bind m k o =
  match outcome (m o) with
  | Return a =>
      {| outcome := outcome (k a (final (m o)));
         final := final (k a (final (m o)));
         effects := effects (m o) ++ effects (k a (final (m o))) |}
  | Throw e =>
      {| outcome := Throw e; final := final (m o); effects := effects (m o) |}
  end.
Proof.
  unfold bind. destruct (m o) as [[a|e] o1 tr1]; simpl; [|done].
  by destruct (k a o1).
Qed.

Lemma signalled_idemp t : signalled (signalled t) = signalled t.
Proof. by destruct t. Qed.

Lemma signalled_alive t :
  t ≠ transport_destroyed → signalled t ≠ transport_destroyed.
Proof. by destruct t. Qed.

Lemma call_peerFound_listener_spec signal l o :
  is_Some (peer o) → transport o ≠ transport_destroyed →
  call_peerFound_listener signal l o
  = {| outcome := Return ();
       final := match l with
                | feed_transport => set_transport (signalled (transport o)) o
                | start_key_exchange =>
                    set_pending_generateKeys (S (pending_generateKeys o)) o
                end;
       effects := [listener_effect signal l] |}.
Proof.
  intros [p Hp] Ht. destruct l; unfold call_peerFound_listener;
    rewrite bind_eq; simpl; [|done].
  rewrite Hp. unfold Peer_signal. rewrite bind_eq; simpl.
  rewrite bind_eq; simpl. by destruct (transport o).
Qed.

Lemma call_listeners_spec signal listeners o :
  is_Some (peer o) → transport o ≠ transport_destroyed →
  forEach listeners (call_peerFound_listener signal) o
  = {| outcome := Return ();
       final := set_pending_generateKeys
                  (length (filter (λ l, l = start_key_exchange) listeners)
                   + pending_generateKeys o)
                  (set_transport
                     (if bool_decide (feed_transport ∈ listeners)
                      then signalled (transport o) else transport o) o);
       effects := map (listener_effect signal) listeners |}.
Proof.
  revert o. induction listeners as [|l ls IH]; intros o Hp Ht.
  - destruct o; done.
  - simpl forEach. rewrite bind_eq, call_peerFound_listener_spec by done.
    simpl. destruct l.
    + rewrite IH; [|done|by apply signalled_alive]. simpl. f_equal.
      unfold set_pending_generateKeys, set_transport; simpl. f_equal.
      rewrite signalled_idemp. by destruct (bool_decide _).
    + rewrite IH by done. simpl. f_equal.
      unfold set_pending_generateKeys, set_transport; simpl. f_equal; [lia|].
      rewrite (bool_decide_ext (feed_transport ∈ start_key_exchange :: ls)
                 (feed_transport ∈ ls)); [done|].
      rewrite elem_of_cons. split; [by intros [?|?] | by right].
Qed.

Lemma wired_feeds o : wired o → feed_transport ∈ on_peerFound o.
Proof.
  intros [_ Hh]. destruct (on_peerFound o); simplify_eq/=. left.
Qed.

(** ['peerFound'] on a transport that takes the blob, and on one that is
    destroyed. *)
Lemma emit_peerFound_spec signal o :
  wired o → transport o ≠ transport_destroyed →
  emit (peerFound_event signal) o
  = {| outcome := Return ();
       final := set_pending_generateKeys
                  (key_exchange_listeners o + pending_generateKeys o)
                  (set_transport (signalled (transport o)) o);
       effects := peerFound_effects (on_peerFound o) signal |}.
Proof.
  intros Hw Ht. unfold emit. rewrite bind_eq. simpl. rewrite bind_eq. simpl.
  rewrite call_listeners_spec by (done || apply Hw).
  by rewrite bool_decide_eq_true_2 by by apply wired_feeds.
Qed.

Lemma emit_peerFound_destroyed signal o :
  wired o → transport o = transport_destroyed →
  emit (peerFound_event signal) o
  = {| outcome := Throw PeerError; final := o;
       effects := [Emit (peerFound_event signal); PeerSignal signal] |}.
Proof.
  intros [[p Hp] Hh] Ht. unfold emit. rewrite bind_eq. simpl.
  rewrite bind_eq. simpl. destruct (on_peerFound o) as [|l ls]; simplify_eq/=.
  rewrite bind_eq. simpl. rewrite bind_eq. simpl. rewrite Hp.
  unfold Peer_signal. rewrite bind_eq; simpl. rewrite bind_eq; simpl.
  by rewrite Ht.
Qed.

Lemma listenSignalRoutine_forEach_spec signal o :
  wired o → transport o ≠ transport_destroyed →
  listenSignalRoutine_forEach signal o
  = if decide (signal ≠ JSON_stringify (peerSignal o)) then
      {| outcome := Return ();
         final := set_otherPeers (JSSet.add (otherPeers o) signal)
                    (set_pending_generateKeys
                       (key_exchange_listeners o + pending_generateKeys o)
                       (set_transport (signalled (transport o)) o));
         effects := peerFound_effects (on_peerFound o) signal |}
    else {| outcome := Return (); final := o; effects := [] |}.
Proof.
  intros Hw Ht. unfold listenSignalRoutine_forEach. rewrite bind_eq. simpl.
  case_decide; [|done].
  rewrite bind_eq, emit_peerFound_spec by done. simpl.
  by rewrite app_nil_r.
Qed.

Lemma listenSignalRoutine_forEach_destroyed signal o :
  wired o → transport o = transport_destroyed →
  listenSignalRoutine_forEach signal o
  = if decide (signal ≠ JSON_stringify (peerSignal o)) then
      {| outcome := Throw PeerError; final := o;
         effects := [Emit (peerFound_event signal); PeerSignal signal] |}
    else {| outcome := Return (); final := o; effects := [] |}.
Proof.
  intros Hw Ht. unfold listenSignalRoutine_forEach. rewrite bind_eq. simpl.
  case_decide; [|done].
  by rewrite bind_eq, emit_peerFound_destroyed.
Qed.

Lemma poll_loop_spec l o :
  wired o → transport o ≠ transport_destroyed →
  let keep := filter (λ s, s ≠ JSON_stringify (peerSignal o)) l in
  forEach l listenSignalRoutine_forEach o
  = {| outcome := Return ();
       final := set_otherPeers (foldl JSSet.add (otherPeers o) keep)
                  (set_pending_generateKeys
                     (length keep * key_exchange_listeners o
                      + pending_generateKeys o)
                     (set_transport
                        (match keep with
                         | [] => transport o
                         | _ => signalled (transport o)
                         end) o));
       effects := keep ≫= peerFound_effects (on_peerFound o) |}.
Proof.
  revert o. induction l as [|x l IH]; intros o Hw Ht.
  - destruct o; done.
  - destruct o. simpl forEach.
    rewrite bind_eq, listenSignalRoutine_forEach_spec by done.
    case_decide as Hx.
    + unfold set_otherPeers, set_pending_generateKeys, set_transport.
      simpl in *. rewrite IH; [|done|by apply signalled_alive].
      unfold set_otherPeers, set_pending_generateKeys, set_transport.
      simpl. rewrite (filter_cons_True _ x l Hx).
      simpl. f_equal. f_equal.
      * unfold key_exchange_listeners; simpl. lia.
      * rewrite signalled_idemp. by case_match.
    + simpl in *. rewrite IH by done. simpl.
      rewrite filter_cons_False; [done | by intros ?].
Qed.

Lemma poll_loop_destroyed l o :
  wired o → transport o = transport_destroyed →
  forEach l listenSignalRoutine_forEach o
  = match filter (λ s, s ≠ JSON_stringify (peerSignal o)) l with
    | [] => {| outcome := Return (); final := o; effects := [] |}
    | x :: _ =>
        {| outcome := Throw PeerError; final := o;
           effects := [Emit (peerFound_event x); PeerSignal x] |}
    end.
Proof.
  intros Hw Ht. induction l as [|x l IH]; [done|].
  simpl forEach. rewrite bind_eq, listenSignalRoutine_forEach_destroyed by done.
  case_decide as Hx.
  - by rewrite (filter_cons_True _ x l Hx).
  - simpl. rewrite IH. rewrite filter_cons_False by by intros ?.
    by case_match.
Qed.

Lemma poll_news_NoDup resp o : NoDup (poll_news resp o).
Proof. apply NoDup_filter, NoDup_setDifference. Qed.

Lemma elem_of_poll_news resp o s :
  s ∈ poll_news resp o ↔
  s ∈ resp ∧ (s ∉ otherPeers o) ∧ s ≠ JSON_stringify (peerSignal o).
Proof.
  unfold poll_news.
  rewrite list_elem_of_filter, elem_of_setDifference, JSSet_elem_of_of_iterable.
  tauto.
Qed.

Lemma poll_found_sublist resp o : poll_found resp o `sublist_of` poll_news resp o.
Proof.
  unfold poll_found. destruct (transport o); try done. apply sublist_take.
Qed.

Lemma poll_seen_prefix resp o : poll_seen resp o `prefix_of` poll_found resp o.
Proof.
  unfold poll_seen, poll_found. destruct (transport o); try done.
  apply prefix_nil.
Qed.

Lemma poll_seen_alive resp o :
  transport o ≠ transport_destroyed →
  poll_seen resp o = poll_news resp o ∧ poll_found resp o = poll_news resp o.
Proof. unfold poll_seen, poll_found. by destruct (transport o). Qed.

Lemma poll_seen_destroyed resp o :
  transport o = transport_destroyed →
  poll_seen resp o = [] ∧ poll_found resp o = take 1 (poll_news resp o).
Proof. unfold poll_seen, poll_found. by intros ->. Qed.

Lemma elem_of_poll_found resp o s :
  s ∈ poll_found resp o →
  s ∈ resp ∧ (s ∉ otherPeers o) ∧ s ≠ JSON_stringify (peerSignal o).
Proof.
  intros Hs. apply elem_of_poll_news.
  eapply elem_of_sublist; [done | apply poll_found_sublist].
Qed.

Lemma elem_of_poll_seen resp o s :
  s ∈ poll_seen resp o →
  s ∈ resp ∧ (s ∉ otherPeers o) ∧ s ≠ JSON_stringify (peerSignal o).
Proof.
  unfold poll_seen. destruct (transport o); try apply elem_of_poll_news.
  by intros ?%elem_of_nil.
Qed.

Lemma poll_seen_NoDup resp o : NoDup (poll_seen resp o).
Proof.
  unfold poll_seen. destruct (transport o); try apply poll_news_NoDup.
  apply NoDup_nil_2.
Qed.

Lemma poll_found_NoDup resp o : NoDup (poll_found resp o).
Proof.
  eapply sublist_NoDup; [apply poll_news_NoDup | apply poll_found_sublist].
Qed.

Lemma found_poll_effects resp o : found (poll_effects resp o) = poll_found resp o.
Proof.
  unfold poll_effects, poll_found.
  destruct (transport o); try apply found_peerFound_effects.
  by destruct (poll_news resp o).
Qed.


Lemma published_poll_effects resp o : published (poll_effects resp o) = [].
Proof.
  unfold poll_effects.
  destruct (transport o); try apply published_peerFound_effects.
  by destruct (poll_news resp o).
Qed.

Lemma key_generations_poll_effects resp o :
  key_generations (poll_effects resp o)
  = length (poll_seen resp o) * key_exchange_listeners o.
Proof.
  unfold poll_effects, poll_seen.
  destruct (transport o); try apply key_generations_peerFound_effects.
  by destruct (poll_news resp o).
Qed.

(** ** The event loop *)

Section handlers.
Variable JSON_parse : string → option JSValue.

(** What the response of a poll does, in full. *)
Lemma handle_getSignal_resolved resp o :
  wired o →
  handle JSON_parse (getSignal_resolved resp) o
  = {| outcome := poll_outcome resp o;
       final := set_otherPeers (otherPeers o ++ poll_seen resp o)
                  (set_pending_generateKeys
                     (length (poll_seen resp o) * key_exchange_listeners o
                      + pending_generateKeys o)
                     (set_transport (poll_transport resp o)
                        (set_pending_getSignal (pred (pending_getSignal o)) o)));
       effects := poll_effects resp o |}.
Proof.
  intros Hw. unfold handle, listenSignalRoutine_then.
  rewrite bind_eq; simpl. rewrite bind_eq; simpl.
  destruct (decide (transport o = transport_destroyed)) as [Ht|Ht].
  - rewrite poll_loop_destroyed by done. simpl.
    unfold poll_outcome, poll_seen, poll_effects, poll_transport, poll_news.
    rewrite Ht. simpl.
    destruct (filter _ _); destruct o; simpl in *; subst;
      by rewrite ?app_nil_r.
  - rewrite poll_loop_spec by done. simpl.
    unfold poll_outcome, poll_seen, poll_effects, poll_transport.
    fold (poll_news resp o).
    rewrite JSSet_foldl_add_fresh.
    + by destruct (transport o).
    + apply poll_news_NoDup.
    + intros x Hx. apply (elem_of_poll_news resp o) in Hx. tauto.
Qed.

Lemma run_invariant (P : GRTC → list Effect → Prop) :
  (∀ o tr ev,
     P o tr → enabled o ev = true →
     P (final (handle JSON_parse ev o)) (tr ++ effects (handle JSON_parse ev o))) →
  ∀ evs o tr o' tr',
    P o tr → run JSON_parse evs o tr = Some (o', tr') → P o' tr'.
Proof.
  intros Hstep evs. induction evs as [|ev evs IH]; intros o tr o' tr' HP Hrun.
  - simpl in Hrun. by simplify_eq.
  - simpl in Hrun. destruct (enabled o ev) eqn:Hen; [|done].
    eapply IH; [|done]. by apply Hstep.
Qed.


Lemma run_app evs evs' o tr o' tr' :
  run JSON_parse evs o tr = Some (o', tr') →
  run JSON_parse (evs ++ evs') o tr = run JSON_parse evs' o' tr'.
Proof.
  revert o tr. induction evs as [|ev evs IH]; intros o tr Hrun; simpl in *.
  - by simplify_eq.
  - destruct (enabled o ev); [|done]. by apply IH.
Qed.

Lemma constructor_wired grtcID url joinee reload :
  wired (final (constructor grtcID url joinee reload)).
Proof. destruct joinee; unfold_methods; done. Qed.

Lemma step_wired ev o :
  wired o → wired (final (handle JSON_parse ev o)).
Proof.
  intros Hw. destruct ev.
  5: { by rewrite handle_getSignal_resolved. }
  all: destruct Hw as [Hp Hh]; destruct o; simpl in *; unfold_methods;
    case_stuck JSON_parse; split; simpl; try done.
  all: by destruct on_peerFound0.
Qed.

(** What one event does to the transport. *)
Lemma step_transport ev o :
  wired o →
  transport (final (handle JSON_parse ev o))
  = match ev with
    | peer_connect => transport_connected
    | peer_close => transport_destroyed
    | getSignal_resolved resp => poll_transport resp o
    | _ => transport o
    end.
Proof.
  intros Hw. destruct ev.
  5: { by rewrite handle_getSignal_resolved. }
  all: destruct o; unfold_methods; case_stuck JSON_parse; done.
Qed.

(** A peer that is destroyed stays so. *)
Lemma step_destroyed ev o :
  wired o → enabled o ev = true →
  transport o = transport_destroyed →
  transport (final (handle JSON_parse ev o)) = transport_destroyed.
Proof.
  intros Hw Hen Ht. rewrite step_transport by done.
  destruct ev; try done.
  - apply bool_decide_eq_true in Hen as [_ ?]. congruence.
  - unfold poll_transport. rewrite Ht. by case_match.
Qed.

(** What one event does to [otherPeers] and which ['peerFound'] events it
    emits. *)
Lemma step_found ev o :
  wired o →
  let r := handle JSON_parse ev o in
  found (effects r)
  = match ev with
    | getSignal_resolved resp => poll_found resp o
    | _ => []
    end ∧
  otherPeers (final r)
  = otherPeers o ++ match ev with
                    | getSignal_resolved resp => poll_seen resp o
                    | _ => []
                    end.
Proof.
  intros Hw. destruct ev.
  5: { rewrite handle_getSignal_resolved by done. simpl.
       by rewrite found_poll_effects. }
  all: destruct o; unfold_methods; case_stuck JSON_parse; by rewrite ?app_nil_r.
Qed.

(** What one event publishes and what it does to [peerSignal]. *)
Lemma step_published ev o :
  wired o →
  let r := handle JSON_parse ev o in
  published (effects r)
  = match ev with
    | peer_signal data => if handshake_settled o then [] else [Some data]
    | _ => []
    end ∧
  peerSignal (final r)
  = match ev with
    | peer_signal data => Some data
    | _ => peerSignal o
    end.
Proof.
  intros Hw. destruct ev.
  5: { rewrite handle_getSignal_resolved by done. simpl.
       by rewrite published_poll_effects. }
  all: destruct o; unfold_methods; case_stuck JSON_parse; done.
Qed.

(** No event clears a timer. *)
Lemma step_intervals ev o :
  wired o →
  intervals o `prefix_of` intervals (final (handle JSON_parse ev o)).
Proof.
  intros Hw. destruct ev.
  5: { by rewrite handle_getSignal_resolved. }
  all: destruct o; unfold_methods; case_stuck JSON_parse;
    try done; by apply prefix_app_r.
Qed.

Lemma run_intervals evs o tr o' tr' h :
  wired o →
  run JSON_parse evs o tr = Some (o', tr') →
  h ∈ intervals o → h ∈ intervals o'.
Proof.
  intros Hp Hrun Hh.
  enough (wired o' ∧ h ∈ intervals o') as [_ ?] by done.
  eapply (run_invariant (λ o _, wired o ∧ h ∈ intervals o));
    [| |exact Hrun]; [|done].
  intros o1 _ ev [Hp1 Hh1] _. split; [by apply step_wired|].
  destruct (step_intervals ev o1 Hp1) as [k ->]. apply elem_of_app. by left.
Qed.

Lemma listenSignal_adds_timer o instance :
  signalInstance o = Some instance →
  let r := listenSignal o in
  intervals (final r) = intervals o ++ [next_handle o] ∧
  next_handle (final r) = S (next_handle o) ∧
  requests (effects r)
  = [get_request (sig_url instance) (sig_grtcID instance)].
Proof.
  intros Hsi. destruct o; simpl in *; subst. unfold_methods. done.
Qed.

(** *** [otherPeers] and the emitted blobs *)

Lemma seen_is_found_step o tr ev :
  seen_is_found o tr → enabled o ev = true →
  seen_is_found (final (handle JSON_parse ev o))
    (tr ++ effects (handle JSON_parse ev o)).
Proof.
  intros (Hw & Hnd & (again & Hfound & Hagain & Halive) & Hnew) Hen.
  destruct (step_found ev o Hw) as [Hf Ho].
  pose proof (step_transport ev o Hw) as Ht.
  split_and!.
  - by apply step_wired.
  - rewrite Ho. destruct ev; rewrite ?app_nil_r; try done.
    apply NoDup_app. split_and!; [done| |].
    + intros s Hs Hin%elem_of_poll_seen. tauto.
    + apply poll_seen_NoDup.
  - rewrite found_app, Hf, Ho, Hfound.
    destruct (decide (transport o = transport_destroyed)) as [Hd|Hd].
    + exists (again ++ match ev with
                       | getSignal_resolved resp => poll_found resp o
                       | _ => []
                       end).
      assert (match ev with
              | getSignal_resolved resp => poll_seen resp o
              | _ => []
              end = []) as ->.
      { destruct ev; try done. by apply poll_seen_destroyed. }
      rewrite app_nil_r. split_and!; [by rewrite (assoc_L (++)) | |].
      * intros s [?|Hin]%elem_of_app; [by apply Hagain|].
        destruct ev; try by apply elem_of_nil in Hin.
        apply elem_of_poll_found in Hin. tauto.
      * intros Hlive. by rewrite step_destroyed in Hlive.
    + exists []. rewrite (Halive Hd), !app_nil_r.
      split_and!; [|by intros ? ?%elem_of_nil|done].
      destruct ev; try done.
      by destruct (poll_seen_alive resp o Hd) as [-> ->].
  - rewrite Ho, Ht. intros [Hseen Hadd]%app_eq_nil. specialize (Hnew Hseen).
    destruct ev; try done.
    + apply bool_decide_eq_true in Hen as [_ ?]. congruence.
    + unfold poll_transport.
      assert (transport o ≠ transport_destroyed) as Hd by congruence.
      destruct (poll_seen_alive resp o Hd) as [Hs _].
      by rewrite <-Hs, Hadd.
    + apply bool_decide_eq_true in Hen as [_ [?|?]]; congruence.
Qed.

Lemma session_seen_is_found grtcID url joinee reload evs o tr :
  session JSON_parse grtcID url joinee reload evs = Some (o, tr) →
  seen_is_found o tr.
Proof.
  unfold session. intros Hrun.
  eapply (run_invariant seen_is_found); [| |exact Hrun].
  - intros. by apply seen_is_found_step.
  - split; [apply constructor_wired|].
    destruct joinee; unfold_methods; simpl;
      (split; [apply NoDup_nil_2|]); (split; [exists []|done]);
      (split; [done|]); (split; [|done]); by intros ? ?%elem_of_nil.
Qed.

(** A session whose [otherPeers] is empty has a transport that no blob was
    handed to. *)
Lemma session_first_poll grtcID url joinee reload evs o tr :
  session JSON_parse grtcID url joinee reload evs = Some (o, tr) →
  otherPeers o = [] →
  wired o ∧ transport o ≠ transport_destroyed.
Proof.
  intros (Hw & _ & _ & Hnew)%session_seen_is_found Hseen.
  split; [done|]. by rewrite (Hnew Hseen).
Qed.

(** C1, as the code has it.  As long as the transport of the session is not
    destroyed, no blob is the argument of two ['peerFound'] events, and
    [otherPeers] is the list of the blobs emitted.  In every state of every
    session, the blobs of [otherPeers] have been emitted once each and what
    else has been emitted is not among them; one event emits a blob at most
    once, emits no blob of [otherPeers], and does not emit ['peerFound']
    with the serialisation of the [peerSignal] that the session holds when
    the event arrives (it is still the one held when the event has been
    handled). *)
Theorem recorded_blobs_are_not_emitted_again grtcID url joinee reload evs o tr :
  session JSON_parse grtcID url joinee reload evs = Some (o, tr) →
  (transport o ≠ transport_destroyed →
   NoDup (found tr) ∧ otherPeers o = found tr) ∧
  (∃ again,
     found tr = otherPeers o ++ again ∧ NoDup (otherPeers o) ∧
     ∀ s, s ∈ again → s ∉ otherPeers o) ∧
  ∀ ev,
    let r := handle JSON_parse ev o in
    NoDup (found (effects r)) ∧
    (∀ s, s ∈ found (effects r) → s ∉ otherPeers o) ∧
    (JSON_stringify (peerSignal o) ∉ found (effects r)) ∧
    (JSON_stringify (peerSignal (final r)) ∉ found (effects r)).
Proof.
  intros (Hw & Hnd & (again & Hfound & Hagain & Halive) & _)%session_seen_is_found.
  split_and!.
  - intros Hd. rewrite Hfound, (Halive Hd), app_nil_r. done.
  - by exists again.
  - intros ev r. destruct (step_found ev o Hw) as [Hf _].
    destruct (step_published ev o Hw) as [_ Hheld].
    fold r in Hf, Hheld. rewrite Hf.
    destruct ev; try by split_and!;
      [apply NoDup_nil_2 | intros ? ?%elem_of_nil | apply not_elem_of_nil..].
    rewrite Hheld. split_and!; [apply poll_found_NoDup | ..].
    + intros s Hs%elem_of_poll_found. tauto.
    + intros Hs%elem_of_poll_found. tauto.
    + intros Hs%elem_of_poll_found. tauto.
Qed.

(** C2. When the poll of a session that has seen no peer yet and holds the
    blob [A] is answered with [[A; B]], exactly one ['peerFound'] event is
    emitted, with [B], and [otherPeers] becomes [{B}]: [B] is added, [A] is
    not. *)
Theorem first_poll_finds_the_other grtcID url joinee reload evs o tr A B :
  session JSON_parse grtcID url joinee reload evs = Some (o, tr) →
  JSON_stringify (peerSignal o) = A →
  otherPeers o = [] →
  A ≠ B →
  let r := handle JSON_parse (getSignal_resolved [A; B]) o in
  found (effects r) = [B] ∧ otherPeers (final r) = [B] ∧
  (A ∉ otherPeers (final r)).
Proof.
  intros Hs Hheld Hseen HAB r.
  destruct (session_first_poll _ _ _ _ _ _ _ Hs Hseen) as [Hw Hd].
  destruct (step_found (getSignal_resolved [A; B]) o Hw) as [Hf Ho].
  fold r in Hf, Ho. rewrite Hf, Ho, Hseen.
  destruct (poll_seen_alive [A; B] o Hd) as [-> ->].
  assert (poll_news [A; B] o = [B]) as ->.
  { assert (JSSet.of_iterable [A; B] = [A; B]) as Hset.
    { apply JSSet_of_iterable_NoDup, NoDup_cons. split.
      - by intros ?%list_elem_of_singleton.
      - apply NoDup_singleton. }
    unfold poll_news, setDifference. rewrite Hseen, Hheld.
    cbn [foldl]. rewrite !Hset, filter_cons_False by (by intros ?).
    by rewrite filter_cons_True. }
  split_and!; [done..|]. by intros ->%list_elem_of_singleton.
Qed.

(** *** The order of publication and polling *)



(** *** The key exchange *)

(** C4, as the code has it.  The ['connect'] event of the transport, which
    is connected from then on, emits ['peerConnected'] and does nothing
    else to the session.  Keys are generated when ['peerFound'] is emitted
    and the transport has taken the blob: an event then generates one key
    pair for each blob that it emits and each listener that
    [securityHandler] has registered (on a destroyed transport
    [peer.signal] throws before these listeners are called, and no key pair
    is generated), and [securityHandler] registers its listener when the
    publication of the session's own signal has been acknowledged.  When a
    key pair is there, the session stores it and hands [{publicKey}] to
    [peer.send], which takes it when the transport is connected and throws
    when it is not. *)
Theorem key_exchange_starts_on_peerFound grtcID url joinee reload evs o tr :
  session JSON_parse grtcID url joinee reload evs = Some (o, tr) →
  handle JSON_parse peer_connect o
  = {| outcome := Return (); final := set_transport transport_connected o;
       effects := [Emit peerConnected_event] |} ∧
  (∀ ev,
     let r := handle JSON_parse ev o in
     key_generations (effects r)
     = match transport o with
       | transport_destroyed => 0
       | _ => length (found (effects r)) * key_exchange_listeners o
       end ∧
     on_peerFound (final r)
     = on_peerFound o ++ match ev with
                         | updateSignal_resolved =>
                             match signalInstance o with
                             | Some _ => [start_key_exchange]
                             | None => []
                             end
                         | _ => []
                         end) ∧
  (∀ generated,
     let r := handle JSON_parse (generateKeys_resolved generated) o in
     keys (final r) = Some generated ∧
     effects r
     = [PeerSend (JObject [("publicKey", JString (publicKey generated))])] ∧
     outcome r = match transport o with
                 | transport_connected => Return ()
                 | _ => Throw PeerError
                 end).
Proof.
  intros Hs. apply session_seen_is_found in Hs as (Hw & _ & _).
  split_and!.
  - destruct o. done.
  - intros ev r. unfold r. destruct ev.
    5: { rewrite handle_getSignal_resolved by done. simpl.
         rewrite found_poll_effects, key_generations_poll_effects.
         unfold poll_seen, poll_found. rewrite app_nil_r.
         by destruct (transport o). }
    all: destruct o; unfold_methods; case_stuck JSON_parse;
      by rewrite ?app_nil_r.
  - intros generated r. unfold r. destruct Hw as [[p Hp] _].
    destruct o; simpl in *; subst. unfold_methods. by case_stuck JSON_parse.
Qed.

(** *** The timers *)

Lemma polling_state_step g u o ev :
  polling_state g u o → polling_state g u (final (handle JSON_parse ev o)).
Proof.
  intros (Hp & Hu & Hg & Hsi). split; [by apply step_wired|]. destruct ev.
  5: { by rewrite handle_getSignal_resolved. }
  all: destruct o; simpl in *; unfold_methods;
    case_stuck JSON_parse; simpl in *; subst; done.
Qed.

Lemma session_polling_state grtcID url joinee reload evs o tr :
  session JSON_parse grtcID url joinee reload evs = Some (o, tr) →
  polling_state grtcID url o.
Proof.
  unfold session. intros Hrun.
  eapply (run_invariant (λ o _, polling_state grtcID url o)); [| |exact Hrun].
  - intros ??? HP _. by apply polling_state_step.
  - destruct joinee; unfold_methods; unfold polling_state, wired; simpl; done.
Qed.

(** C6, as the code has it.  The class has no [stop] and no [close], and no
    event clears a timer: a timer that is set stays set in every later state
    of the session, it can fire there, and when it fires it issues one
    request for the signals of the room. *)
Theorem polling_never_stops grtcID url joinee reload evs o tr h :
  session JSON_parse grtcID url joinee reload evs = Some (o, tr) →
  h ∈ intervals o →
  ∀ evs' o' tr',
    run JSON_parse evs' o tr = Some (o', tr') →
    h ∈ intervals o' ∧
    enabled o' (interval_fires h) = true ∧
    requests (effects (handle JSON_parse (interval_fires h) o'))
    = [get_request url grtcID].
Proof.
  intros Hs Hh evs' o' tr' Hrun.
  assert (h ∈ intervals o') as Hh'.
  { eapply run_intervals; [|done..].
    by apply session_seen_is_found in Hs as (? & _). }
  assert (polling_state grtcID url o') as (Hp & Hu & Hg & Hsi).
  { eapply (session_polling_state _ _ joinee reload (evs ++ evs')).
    unfold session in *. by erewrite run_app. }
  split_and!; [done | by apply bool_decide_eq_true |].
  destruct o'; simpl in *. unfold_methods. case_stuck JSON_parse.
  - destruct Hsi as [-> ->]. done.
  - subst. by apply not_elem_of_nil in Hh'.
Qed.

(** *** [otherPeers] and the session's own blob *)

Lemma own_blob_unseen_step o tr ev :
  own_blob_unseen o tr →
  signals_fresh JSON_parse [ev] o = true →
  own_blob_unseen (final (handle JSON_parse ev o))
    (tr ++ effects (handle JSON_parse ev o)).
Proof.
  intros (Hp & Hown & Hpub) Hfresh.
  destruct (step_found ev o Hp) as [_ Ho].
  destruct (step_published ev o Hp) as [Hp' Hs].
  split_and!; [by apply step_wired | |].
  - rewrite Ho, Hs. destruct ev; rewrite ?app_nil_r; try done.
    + simpl in Hfresh. rewrite andb_true_r in Hfresh.
      by apply bool_decide_eq_true in Hfresh as [_ ?].
    + intros [?|?%elem_of_poll_seen]%elem_of_app; tauto.
  - intros s. rewrite published_app, elem_of_app, Hp', Hs.
    destruct ev; rewrite ?elem_of_nil; try (intros [?|[]]; by apply Hpub).
    simpl in Hfresh. rewrite andb_true_r in Hfresh.
    apply bool_decide_eq_true in Hfresh as [Hnone _].
    intros [Hin|Hin].
    + apply Hpub in Hin as [-> Hsome]. rewrite Hnone in Hsome.
      by destruct Hsome.
    + destruct (handshake_settled o); [by apply elem_of_nil in Hin|].
      apply list_elem_of_singleton in Hin as ->. done.
Qed.

Lemma run_own_blob_unseen evs o tr o' tr' :
  own_blob_unseen o tr →
  signals_fresh JSON_parse evs o = true →
  run JSON_parse evs o tr = Some (o', tr') →
  own_blob_unseen o' tr'.
Proof.
  revert o tr. induction evs as [|ev evs IH]; intros o tr Hinv Hfresh Hrun.
  - simpl in Hrun. by simplify_eq.
  - cbn [run] in Hrun. destruct (enabled o ev); [|done].
    cbn [signals_fresh] in Hfresh. apply andb_true_iff in Hfresh as [H1 H2].
    eapply IH; [|done..]. apply own_blob_unseen_step; [done|].
    cbn [signals_fresh]. by rewrite H1.
Qed.

(** C7, as the code has it.  Every event leaves the elements of
    [otherPeers] in place and only adds to them, and what it adds differs
    from the serialisation of the [peerSignal] held when the event arrives.
    When the transport has delivered at most one local signal, and that
    signal was not in [otherPeers] when it came, [otherPeers] contains
    neither the blob that the session holds nor a blob that it has
    published. *)
Theorem otherPeers_grows_without_held_blob grtcID url joinee reload evs o tr :
  session JSON_parse grtcID url joinee reload evs = Some (o, tr) →
  (∀ ev,
     let r := handle JSON_parse ev o in
     otherPeers o `prefix_of` otherPeers (final r) ∧
     ∀ s, s ∈ otherPeers (final r) →
          s ∈ otherPeers o ∨ s ≠ JSON_stringify (peerSignal o)) ∧
  (signals_fresh JSON_parse evs (final (constructor grtcID url joinee reload))
   = true →
   (JSON_stringify (peerSignal o) ∉ otherPeers o) ∧
   ∀ s, s ∈ published tr → JSON_stringify s ∉ otherPeers o).
Proof.
  intros Hs. split.
  - apply session_seen_is_found in Hs as (Hp & _ & _).
    intros ev r. destruct (step_found ev o Hp) as [_ Ho]. fold r in Ho.
    rewrite Ho. split; [by apply prefix_app_r|].
    intros s [?|Hin]%elem_of_app; [by left|]. right.
    destruct ev; try by apply elem_of_nil in Hin.
    apply elem_of_poll_seen in Hin. tauto.
  - intros Hfresh. unfold session in Hs.
    eapply run_own_blob_unseen in Hs as (_ & Hown & Hpub); [|..|done].
    + split; [done|]. intros s [-> _]%Hpub. done.
    + split; [apply constructor_wired|].
      destruct joinee; unfold_methods; simpl;
        (split; [apply not_elem_of_nil|]); intros s Hin;
        by apply elem_of_nil in Hin.
Qed.

(** *** Messages *)

(** C9. A message that is not JSON makes [dataHandler] throw the
    [SyntaxError] of [JSON.parse]: the message is dropped, nothing is
    emitted, and the session is in the state it was in, so that every later
    event is handled as if the message had not come. *)
Theorem malformed_message_is_dropped o data :
  JSON_parse data = None →
  handle JSON_parse (peer_data data) o
  = {| outcome := Throw SyntaxError; final := o; effects := [] |} ∧
  ∀ evs tr,
    enabled o (peer_data data) = true →
    run JSON_parse (peer_data data :: evs) o tr = run JSON_parse evs o tr.
Proof.
  intros Hparse.
  assert (handle JSON_parse (peer_data data) o
          = {| outcome := Throw SyntaxError; final := o; effects := [] |}) as Hh.
  { unfold handle, peer_on_data, dataHandler. by rewrite Hparse. }
  split; [done|]. intros evs tr Hen. cbn [run]. rewrite Hen, Hh. simpl.
  by rewrite app_nil_r.
Qed.

End handlers.

(** ** Sessions of the examples *)

Lemma recorded_blobs_are_not_emitted_again_witness :
  ∃ o tr,
    session JSON_parse_sample "room" "https://example.org" false false
      [getSignal_resolved ["offer"]; peer_signal "answer";
       updateSignal_resolved;
       getSignal_resolved ["offer"; "answer"; "third"; "third"]]
    = Some (o, tr) ∧
    found tr = ["offer"; "third"] ∧
    transport o ≠ transport_destroyed ∧
    (NoDup (found tr) ∧ otherPeers o = found tr) ∧
    (∃ again,
       found tr = otherPeers o ++ again ∧ NoDup (otherPeers o) ∧
       ∀ s, s ∈ again → s ∉ otherPeers o) ∧
    ∀ ev,
      let r := handle JSON_parse_sample ev o in
      NoDup (found (effects r)) ∧
      (∀ s, s ∈ found (effects r) → s ∉ otherPeers o) ∧
      (JSON_stringify (peerSignal o) ∉ found (effects r)) ∧
      (JSON_stringify (peerSignal (final r)) ∉ found (effects r)).
Proof.
  eexists _, _. split; [vm_compute; reflexivity|].
  split; [vm_compute; reflexivity|].
  split; [discriminate|].
  match goal with
  | |- (NoDup (found ?tr) ∧ otherPeers ?o = _) ∧ ?rest =>
      enough ((transport o ≠ transport_destroyed →
               NoDup (found tr) ∧ otherPeers o = found tr) ∧ rest)
        as [Hlive Hrest]
  end.
  { split; [apply Hlive; discriminate | exact Hrest]. }
  eapply (recorded_blobs_are_not_emitted_again JSON_parse_sample
           "room" "https://example.org" false false
           [getSignal_resolved ["offer"]; peer_signal "answer";
            updateSignal_resolved;
            getSignal_resolved ["offer"; "answer"; "third"; "third"]]).
  vm_compute; reflexivity.
Defined.

(** C1, as the spec has it, fails.  The joinee finds the offer and hands it
    to its transport; the connection fails, which destroys the transport;
    a second peer publishes in the room.  From then on [peer.signal] throws
    inside [emit], before the blob is added to [otherPeers], and every poll
    emits the second blob again. *)
Lemma blob_found_again_counterexample :
  ¬ (∀ o tr,
       session JSON_parse_sample "room" "https://example.org" false false
         [getSignal_resolved ["offer"]; peer_close;
          interval_fires 1; getSignal_resolved ["offer"; "second"];
          interval_fires 1; getSignal_resolved ["offer"; "second"]]
       = Some (o, tr) →
       NoDup (found tr)).
Proof.
  intros Hclaim.
  assert (∃ o tr,
            session JSON_parse_sample "room" "https://example.org" false false
              [getSignal_resolved ["offer"]; peer_close;
               interval_fires 1; getSignal_resolved ["offer"; "second"];
               interval_fires 1; getSignal_resolved ["offer"; "second"]]
            = Some (o, tr) ∧
            found tr = ["offer"; "second"; "second"] ∧
            otherPeers o = ["offer"]) as (o & tr & Hs & Hfound & _).
  { eexists _, _. split_and!; vm_compute; reflexivity. }
  apply Hclaim in Hs. rewrite Hfound in Hs.
  apply NoDup_cons in Hs as [_ [Hsecond _]%NoDup_cons].
  apply Hsecond. by left.
Qed.

Lemma first_poll_finds_the_other_witness :
  ∃ o tr,
    session JSON_parse_sample "room" "https://example.org" true false
      [peer_signal "A"; updateSignal_resolved]
    = Some (o, tr) ∧
    JSON_stringify (peerSignal o) = "A" ∧
    otherPeers o = [] ∧
    "A" ≠ "B" ∧
    let r := handle JSON_parse_sample (getSignal_resolved ["A"; "B"]) o in
    found (effects r) = ["B"] ∧ otherPeers (final r) = ["B"] ∧
    ("A" ∉ otherPeers (final r)).
Proof.
  eexists _, _. split; [vm_compute; reflexivity|].
  split; [reflexivity|]. split; [reflexivity|]. split; [discriminate|].
  eapply (first_poll_finds_the_other JSON_parse_sample
           "room" "https://example.org" true false
           [peer_signal "A"; updateSignal_resolved]).
  - vm_compute; reflexivity.
  - reflexivity.
  - reflexivity.
  - discriminate.
Defined.


Lemma key_exchange_starts_on_peerFound_witness :
  ∃ o tr,
    session JSON_parse_sample "room" "https://example.org" true false
      [peer_signal "offer"; updateSignal_resolved]
    = Some (o, tr) ∧
    key_exchange_listeners o = 1 ∧
    transport o = transport_new ∧
    handle JSON_parse_sample peer_connect o
    = {| outcome := Return (); final := set_transport transport_connected o;
         effects := [Emit peerConnected_event] |} ∧
    (∀ ev,
       let r := handle JSON_parse_sample ev o in
       key_generations (effects r)
       = match transport o with
         | transport_destroyed => 0
         | _ => length (found (effects r)) * key_exchange_listeners o
         end ∧
       on_peerFound (final r)
       = on_peerFound o ++ match ev with
                           | updateSignal_resolved =>
                               match signalInstance o with
                               | Some _ => [start_key_exchange]
                               | None => []
                               end
                           | _ => []
                           end) ∧
    (∀ generated,
       let r := handle JSON_parse_sample (generateKeys_resolved generated) o in
       keys (final r) = Some generated ∧
       effects r
       = [PeerSend (JObject [("publicKey", JString (publicKey generated))])] ∧
       outcome r = match transport o with
                   | transport_connected => Return ()
                   | _ => Throw PeerError
                   end).
Proof.
  eexists _, _. split; [vm_compute; reflexivity|].
  split; [reflexivity|]. split; [reflexivity|].
  eapply (key_exchange_starts_on_peerFound JSON_parse_sample
           "room" "https://example.org" true false
           [peer_signal "offer"; updateSignal_resolved]).
  vm_compute; reflexivity.
Defined.

(** C4, as the spec has it, fails.  The initiator has published its offer
    and its poll finds the answer: the key pair is requested at once, when
    the transport has not yet reported that it is connected, and the report
    itself requests none. *)
Lemma keys_on_connect_counterexample :
  ¬ (∀ o tr,
       session JSON_parse_sample "room" "https://example.org" true false
         [peer_signal "offer"; updateSignal_resolved;
          getSignal_resolved ["answer"]]
       = Some (o, tr) →
       key_generations tr = 0 ∧
       key_generations (effects (handle JSON_parse_sample peer_connect o)) = 1).
Proof.
  intros Hclaim.
  assert (∃ o tr,
            session JSON_parse_sample "room" "https://example.org" true false
              [peer_signal "offer"; updateSignal_resolved;
               getSignal_resolved ["answer"]]
            = Some (o, tr) ∧
            key_generations tr = 1) as (o & tr & Hs & Hkeys).
  { eexists _, _. split; vm_compute; reflexivity. }
  destruct (Hclaim o tr Hs) as [Hbefore _]. congruence.
Qed.

(** C5.  A session of the joinee calls [listenSignal] in [init] and again
    when its answer has been published.  After the second call two timers
    are set, the field [listenSignalTimer] has lost the handle of the first,
    and when both fire the store is polled twice. *)
Theorem joinee_runs_two_timers :
  ∃ o tr,
    session JSON_parse_sample "room" "https://example.org" false false
      [getSignal_resolved ["offer"]; peer_signal "answer";
       updateSignal_resolved]
    = Some (o, tr) ∧
    intervals o = [1; 2] ∧
    listenSignalTimer o = 2 ∧
    ∃ o' tr',
      run JSON_parse_sample [interval_fires 1; interval_fires 2] o []
      = Some (o', tr') ∧
      requests tr'
      = [get_request "https://example.org" "room";
         get_request "https://example.org" "room"].
Proof.
  eexists _, _. split; [vm_compute; reflexivity|].
  split; [reflexivity|]. split; [reflexivity|].
  eexists _, _. split; vm_compute; reflexivity.
Qed.

Lemma polling_never_stops_witness :
  ∃ o tr,
    session JSON_parse_sample "room" "https://example.org" false false []
    = Some (o, tr) ∧
    1 ∈ intervals o ∧
    ∀ evs' o' tr',
      run JSON_parse_sample evs' o tr = Some (o', tr') →
      1 ∈ intervals o' ∧
      enabled o' (interval_fires 1) = true ∧
      requests (effects (handle JSON_parse_sample (interval_fires 1) o'))
      = [get_request "https://example.org" "room"].
Proof.
  eexists _, _. split; [vm_compute; reflexivity|].
  split; [by left|].
  eapply (polling_never_stops JSON_parse_sample
           "room" "https://example.org" false false [] _ _ 1).
  - vm_compute; reflexivity.
  - by left.
Defined.

(** C6, as the spec has it, fails: in the session of a joinee that has
    just been constructed, no event is a stop after which the timer of the
    poll is cleared and fires no request. *)
Lemma stop_counterexample :
  ¬ (∃ stop : Event,
       enabled (final (constructor "room" "https://example.org" false false))
         stop = true ∧
       (1 ∉ intervals
              (final (handle JSON_parse_sample stop
                        (final (constructor "room" "https://example.org"
                                  false false))))) ∧
       requests
         (effects
            (handle JSON_parse_sample (interval_fires 1)
               (final (handle JSON_parse_sample stop
                         (final (constructor "room" "https://example.org"
                                   false false))))))
       = []).
Proof.
  intros (stop & _ & Hcleared & _). apply Hcleared.
  destruct (step_intervals JSON_parse_sample stop
              (final (constructor "room" "https://example.org" false false)))
    as [k ->].
  - apply constructor_wired.
  - by left.
Qed.

Lemma otherPeers_grows_without_held_blob_witness :
  ∃ o tr,
    session JSON_parse_sample "room" "https://example.org" false false
      [getSignal_resolved ["offer"]; peer_signal "answer";
       updateSignal_resolved; getSignal_resolved ["offer"; "answer"]]
    = Some (o, tr) ∧
    signals_fresh JSON_parse_sample
      [getSignal_resolved ["offer"]; peer_signal "answer";
       updateSignal_resolved; getSignal_resolved ["offer"; "answer"]]
      (final (constructor "room" "https://example.org" false false))
    = true ∧
    otherPeers o = ["offer"] ∧
    published tr = [Some "answer"] ∧
    (∀ ev,
       let r := handle JSON_parse_sample ev o in
       otherPeers o `prefix_of` otherPeers (final r) ∧
       ∀ s, s ∈ otherPeers (final r) →
            s ∈ otherPeers o ∨ s ≠ JSON_stringify (peerSignal o)) ∧
    (JSON_stringify (peerSignal o) ∉ otherPeers o) ∧
    ∀ s, s ∈ published tr → JSON_stringify s ∉ otherPeers o.
Proof.
  eexists _, _. split; [vm_compute; reflexivity|].
  split; [vm_compute; reflexivity|].
  split; [reflexivity|]. split; [reflexivity|].
  match goal with
  | |- ?grows ∧ ?unseen =>
      enough (grows ∧
              (signals_fresh JSON_parse_sample
                 [getSignal_resolved ["offer"]; peer_signal "answer";
                  updateSignal_resolved;
                  getSignal_resolved ["offer"; "answer"]]
                 (final (constructor "room" "https://example.org" false false))
               = true → unseen)) as [Hgrow Hown]
  end.
  { split; [exact Hgrow|]. apply Hown. vm_compute; reflexivity. }
  eapply (otherPeers_grows_without_held_blob JSON_parse_sample
            "room" "https://example.org" false false
            [getSignal_resolved ["offer"]; peer_signal "answer";
             updateSignal_resolved; getSignal_resolved ["offer"; "answer"]]).
  vm_compute; reflexivity.
Defined.

(** C7, as the spec has it, fails.  The initiator publishes its first
    signal; the transport then hands over a second one, which replaces the
    first in [peerSignal] but is not published; the next poll finds the
    published blob in the room, takes it for a peer and adds it to
    [otherPeers]. *)
Lemma published_blob_seen_counterexample :
  ¬ (∀ o tr,
       session JSON_parse_sample "room" "https://example.org" true false
         [peer_signal "S1"; updateSignal_resolved; peer_signal "S2";
          getSignal_resolved ["S1"]]
       = Some (o, tr) →
       ∀ s, s ∈ published tr → JSON_stringify s ∉ otherPeers o).
Proof.
  intros Hclaim.
  assert (∃ o tr,
            session JSON_parse_sample "room" "https://example.org" true false
              [peer_signal "S1"; updateSignal_resolved; peer_signal "S2";
               getSignal_resolved ["S1"]]
            = Some (o, tr) ∧
            published tr = [Some "S1"] ∧
            otherPeers o = ["S1"]) as (o & tr & Hs & Hpub & Hseen).
  { eexists _, _. split_and!; vm_compute; reflexivity. }
  apply (Hclaim o tr Hs (Some "S1")).
  - rewrite Hpub. by left.
  - rewrite Hseen. by left.
Qed.

Lemma malformed_message_is_dropped_witness :
  JSON_parse_sample "{" = None ∧
  handle JSON_parse_sample (peer_data "{")
    (final (constructor "room" "https://example.org" true false))
  = {| outcome := Throw SyntaxError;
       final := final (constructor "room" "https://example.org" true false);
       effects := [] |} ∧
  ∀ evs tr,
    enabled (final (constructor "room" "https://example.org" true false))
      (peer_data "{") = true →
    run JSON_parse_sample (peer_data "{" :: evs)
      (final (constructor "room" "https://example.org" true false)) tr
    = run JSON_parse_sample evs
        (final (constructor "room" "https://example.org" true false)) tr.
Proof.
  split; [reflexivity|].
  eapply (malformed_message_is_dropped JSON_parse_sample
           (final (constructor "room" "https://example.org" true false)) "{").
  reflexivity.
Defined.

(** * Further properties *)

(** ** Strings *)

Lemma chars_of_chars cs : JSString.chars (JSString.of_chars cs) = cs.
Proof. apply String.list_ascii_of_string_of_list_ascii. Qed.

Lemma of_chars_chars s : JSString.of_chars (JSString.chars s) = s.
Proof. apply String.string_of_list_ascii_of_string. Qed.

Lemma chars_app s1 s2 :
  JSString.chars (s1 +:+ s2) = JSString.chars s1 ++ JSString.chars s2.
Proof.
  unfold JSString.chars.
  induction s1 as [|c s1 IH]; [done|].
  change (String c s1 +:+ s2) with (String c (s1 +:+ s2)).
  simpl. by rewrite IH.
Qed.

Lemma of_chars_app cs1 cs2 :
  JSString.of_chars (cs1 ++ cs2)
  = JSString.of_chars cs1 +:+ JSString.of_chars cs2.
Proof.
  unfold JSString.of_chars.
  induction cs1 as [|c cs1 IH]; simpl; [done|]. rewrite IH. reflexivity.
Qed.

Lemma chars_length s : length (JSString.chars s) = String.length s.
Proof.
  unfold JSString.chars.
  induction s as [|c s IH]; simpl; [done|]. by f_equal.
Qed.

Lemma chars_inj s1 s2 : JSString.chars s1 = JSString.chars s2 → s1 = s2.
Proof. intros H. by rewrite <- (of_chars_chars s1), H, of_chars_chars. Qed.

Lemma string_app_assoc s1 s2 s3 : (s1 +:+ s2) +:+ s3 = s1 +:+ s2 +:+ s3.
Proof. apply chars_inj. by rewrite !chars_app, app_assoc. Qed.

Lemma prefix_app_short {A} (l x y : list A) :
  l `prefix_of` x ++ y → length l ≤ length x → l `prefix_of` x.
Proof.
  intros [k Hk] Hlen. exists (drop (length l) x).
  assert (take (length l) (x ++ y) = l) as Hl.
  { by rewrite Hk, take_app_length. }
  rewrite take_app_le in Hl by done. by rewrite <- Hl at 1; rewrite take_drop.
Qed.

Lemma occurs_in_chars search s :
  occurs_in search s ↔
  ∃ k, JSString.chars search `prefix_of` drop k (JSString.chars s) ∧
       k ≤ length (JSString.chars s).
Proof.
  split.
  - intros (a & b & ->). exists (length (JSString.chars a)).
    rewrite !chars_app, drop_app_length, length_app. split; [|lia].
    by apply prefix_app_r.
  - intros (k & [b Hb] & Hk).
    exists (JSString.of_chars (take k (JSString.chars s))), (JSString.of_chars b).
    apply chars_inj. rewrite !chars_app, !chars_of_chars, <- Hb.
    by rewrite take_drop.
Qed.

(** [search_from] returns the first position at which [search] starts. *)
Lemma search_from_Some cs search i n :
  JSString.search_from cs search i = Some n →
  ∃ k, n = i + k ∧ k ≤ length cs ∧ search `prefix_of` drop k cs ∧
       ∀ j, j < k → ¬ search `prefix_of` drop j cs.
Proof.
  revert i. induction cs as [|c cs IH]; intros i; simpl.
  - case_bool_decide as Hp; [|done]. intros [= <-]. exists 0.
    split_and!; [lia | done | done | lia].
  - case_bool_decide as Hp.
    + intros [= <-]. exists 0. split_and!; [lia | simpl; lia | done | lia].
    + intros (k & -> & Hk & Hpre & Hmin)%IH. exists (S k).
      split_and!; [lia | simpl; lia | done |].
      intros [|j] Hj; [done|]. apply Hmin. lia.
Qed.

Lemma search_from_None cs search i :
  JSString.search_from cs search i = None →
  ∀ k, ¬ search `prefix_of` drop k cs.
Proof.
  revert i. induction cs as [|c cs IH]; intros i; simpl.
  - case_bool_decide as Hp; [done|]. intros _ k. by rewrite drop_nil.
  - case_bool_decide as Hp; [done|]. intros Hnone [|k]; [done|].
    simpl. by eapply IH.
Qed.

Lemma search_from_first cs search i k :
  search `prefix_of` drop k cs → k ≤ length cs →
  (∀ j, j < k → ¬ search `prefix_of` drop j cs) →
  JSString.search_from cs search i = Some (i + k).
Proof.
  intros Hpre Hk Hmin.
  destruct (JSString.search_from cs search i) as [n|] eqn:Hs.
  - apply search_from_Some in Hs as (k' & -> & Hk' & Hpre' & Hmin').
    f_equal. f_equal. destruct (Nat.lt_trichotomy k k') as [?|[?|?]]; [|done|].
    + by destruct (Hmin' k).
    + by destruct (Hmin k').
  - by destruct (search_from_None _ _ _ Hs k).
Qed.

Lemma indexOf_absent s search :
  ¬ occurs_in search s → JSString.indexOf s search = (-1)%Z.
Proof.
  intros Hno. unfold JSString.indexOf.
  destruct (JSString.search_from _ _ _) as [n|] eqn:Hs; [|done].
  apply search_from_Some in Hs as (k & -> & Hk & Hpre & _).
  destruct Hno. apply occurs_in_chars. eauto.
Qed.

Lemma indexOf_first pre search rest :
  ¬ occurs_in search (pre +:+ first_chars (String.length search - 1) search) →
  JSString.indexOf (pre +:+ search +:+ rest) search
  = Z.of_nat (String.length pre).
Proof.
  intros Hno. unfold JSString.indexOf.
  rewrite (search_from_first _ _ 0 (String.length pre)); [done|..].
  - rewrite !chars_app, <- chars_length, drop_app_length.
    by apply prefix_app_r.
  - rewrite !chars_app, length_app, chars_length. lia.
  - intros j Hj Hpre. destruct Hno. apply occurs_in_chars. exists j.
    unfold first_chars. rewrite !chars_app, chars_of_chars, length_app.
    rewrite !chars_app in Hpre. rewrite <- chars_length in Hj.
    rewrite <- chars_length.
    set (P := JSString.chars pre) in *. set (C := JSString.chars search) in *.
    split; [|lia].
    rewrite drop_app_le in Hpre |- * by lia.
    rewrite <- (take_drop (length C - 1) C) in Hpre at 2.
    rewrite <- !app_assoc, (app_assoc (drop j P)) in Hpre.
    apply prefix_app_short in Hpre; [done|].
    rewrite length_app, length_drop, length_take. lia.
Qed.

Lemma split_chars_nonempty sep cs : JSString.split_chars sep cs ≠ [].
Proof.
  destruct cs as [|c cs]; simpl; [done|].
  case_decide; [done|]. by destruct (JSString.split_chars sep cs).
Qed.

Lemma split_chars_no_sep sep cs :
  sep ∉ cs → JSString.split_chars sep cs = [cs].
Proof.
  induction cs as [|c cs IH]; simpl; [done|].
  intros [Hc Hcs]%not_elem_of_cons. rewrite decide_False by done.
  by rewrite IH.
Qed.

Lemma split_chars_app sep a b :
  JSString.split_chars sep (a ++ sep :: b)
  = JSString.split_chars sep a ++ JSString.split_chars sep b.
Proof.
  induction a as [|c a IH]; simpl.
  - by rewrite decide_True.
  - case_decide; [by rewrite IH|]. rewrite IH.
    pose proof (split_chars_nonempty sep a).
    by destruct (JSString.split_chars sep a).
Qed.

(** What [split] and [pop] return together: the text after the last
    separator, or the whole text when it has no separator. *)
Lemma last_split_chars sep cs :
  ∃ r, last (JSString.split_chars sep cs) = Some r ∧ (sep ∉ r) ∧
       ((sep ∉ cs) ∧ r = cs ∨ ∃ a, cs = a ++ sep :: r).
Proof.
  destruct (decide (sep ∈ cs)) as [Hin|Hout].
  - apply list_elem_of_split_r in Hin as (a & r & -> & Hr).
    exists r. rewrite split_chars_app, (split_chars_no_sep sep r) by done.
    rewrite last_snoc. eauto.
  - exists cs. rewrite split_chars_no_sep by done. eauto.
Qed.

(** The window that [queryParameter] cuts out of the query string. *)
Lemma substring_window s (k : nat) :
  k ≤ String.length s →
  JSString.chars (JSString.substring s (Z.of_nat k) (Z.of_nat k + 48))
  = take 48 (drop k (JSString.chars s)).
Proof.
  intros Hk. unfold JSString.substring, JSString.clamp.
  rewrite chars_of_chars, chars_length.
  replace (Z.to_nat (Z.min (Z.max (Z.of_nat k) 0) (Z.of_nat (String.length s))))
    with k by lia.
  set (b := Z.to_nat _).
  assert (b = min (k + 48) (String.length s)) as -> by (unfold b; lia).
  replace (min k _) with k by lia.
  destruct (decide (k + 48 ≤ String.length s)).
  - f_equal. lia.
  - rewrite !take_ge; [done|rewrite length_drop, chars_length; lia..].
Qed.

Lemma substring_window_absent s :
  JSString.chars (JSString.substring s (-1) (-1 + 48))
  = take 47 (JSString.chars s).
Proof.
  unfold JSString.substring, JSString.clamp.
  rewrite chars_of_chars, chars_length.
  replace (Z.to_nat (Z.min (Z.max (-1) 0) (Z.of_nat (String.length s))))
    with 0 by lia.
  set (b := Z.to_nat _).
  assert (b = min 47 (String.length s)) as -> by (unfold b; lia).
  rewrite Nat.min_0_l, drop_0, Nat.sub_0_r, Nat.max_0_l.
  destruct (decide (47 ≤ String.length s)).
  - f_equal. lia.
  - rewrite !take_ge; [done|rewrite chars_length; lia..].
Qed.

Lemma indexOf_range s search :
  JSString.indexOf s search = (-1)%Z ∨
  ∃ k, JSString.indexOf s search = Z.of_nat k ∧ k ≤ String.length s.
Proof.
  unfold JSString.indexOf.
  destruct (JSString.search_from _ _ _) as [n|] eqn:Hs; [|by left].
  apply search_from_Some in Hs as (k & -> & Hk & _). right. exists k.
  rewrite chars_length in Hk. done.
Qed.

Lemma queryParameter_window queryString :
  ∃ window,
    queryParameter queryString
    = JSString.of_chars <$> last (JSString.split_chars "=" window) ∧
    length window ≤ 48 ∧
    (∃ k, window = take 48 (drop k (JSString.chars queryString)) ∨
          window = take 47 (JSString.chars queryString)).
Proof.
  unfold queryParameter, pop, JSString.split. rewrite fmap_last. eexists.
  split; [done|].
  destruct (indexOf_range queryString "collaborate") as [->|(k & -> & Hk)].
  - rewrite substring_window_absent. split; [rewrite length_take; lia|].
    exists 0. by right.
  - rewrite substring_window by done. split; [rewrite length_take; lia|].
    exists k. by left.
Qed.

Lemma queryParameter_found pre rest :
  ¬ occurs_in "collaborate" (pre +:+ "collaborat") →
  queryParameter (pre +:+ "collaborate=" +:+ rest)
  = JSString.of_chars
      <$> last (JSString.split_chars "=" (take 36 (JSString.chars rest))).
Proof.
  intros Hfirst.
  unfold queryParameter, pop, JSString.split. rewrite fmap_last.
  change "collaborate=" with ("collaborate" +:+ "=").
  rewrite (string_app_assoc "collaborate" "=").
  rewrite (indexOf_first pre "collaborate") by done.
  rewrite substring_window; cycle 1.
  { rewrite <- !chars_length, !chars_app, !length_app. lia. }
  rewrite !chars_app, <- chars_length, drop_app_length.
  rewrite (take_app_ge (JSString.chars "collaborate")) by (simpl; lia).
  change (JSString.chars "=") with ["="%char].
  change (48 - length (JSString.chars "collaborate")) with 37.
  change (take 37 (["="%char] ++ ?l)) with ("="%char :: take 36 l).
  rewrite split_chars_app. f_equal.
  rewrite last_app.
  by destruct (last_split_chars "=" (take 36 (JSString.chars rest)))
    as (r & -> & _).
Qed.

(** X1. When [collaborate=] stands in the query string, and [collaborate]
    does not occur before it, [queryParameter] returns the 36 characters
    that follow it (fewer when the string ends earlier), provided there is
    no [=] among them: an id of 36 characters is returned whole, whatever
    follows it, and a longer one is cut. *)
Theorem queryParameter_reads_36 pre rest :
  ¬ occurs_in "collaborate" (pre +:+ "collaborat") →
  ("="%char ∉ JSString.chars (first_chars 36 rest)) →
  queryParameter (pre +:+ "collaborate=" +:+ rest)
  = Some (first_chars 36 rest).
Proof.
  intros Hfirst Hrest. rewrite queryParameter_found by done.
  unfold first_chars in *. rewrite chars_of_chars in Hrest.
  by rewrite split_chars_no_sep.
Qed.

(** X2. An id that is shorter than 36 characters is not returned when
    another parameter follows it within these 36 characters: the result is
    then the value of that parameter (the text after the last [=]). *)
Theorem queryParameter_takes_last_value pre id name value :
  ¬ occurs_in "collaborate" (pre +:+ "collaborat") →
  String.length id + String.length name + String.length value + 1 ≤ 36 →
  ("="%char ∉ JSString.chars value) →
  queryParameter (pre +:+ "collaborate=" +:+ id +:+ name +:+ "=" +:+ value)
  = Some value.
Proof.
  intros Hfirst Hlen Hvalue. rewrite queryParameter_found by done.
  rewrite take_ge; cycle 1.
  { rewrite !chars_app, !length_app, !chars_length. simpl. lia. }
  rewrite !chars_app. change (JSString.chars "=") with ["="%char].
  rewrite app_assoc.
  change (["="%char] ++ JSString.chars value)
    with ("="%char :: JSString.chars value).
  rewrite split_chars_app, (split_chars_no_sep _ (JSString.chars value)) by done.
  by rewrite last_snoc; simpl; rewrite of_chars_chars.
Qed.

(** X3. When [collaborate] does not occur in the query string,
    [indexOf] returns -1 and [substring(-1, 47)] starts at 0: the result is
    made from the first 47 characters, and is these 47 characters when they
    hold no [=]. *)
Theorem queryParameter_without_parameter queryString :
  ¬ occurs_in "collaborate" queryString →
  ("="%char ∉ JSString.chars (first_chars 47 queryString)) →
  queryParameter queryString = Some (first_chars 47 queryString).
Proof.
  intros Hno Heq. unfold queryParameter, pop, JSString.split.
  rewrite fmap_last, indexOf_absent by done.
  rewrite substring_window_absent.
  unfold first_chars in *. rewrite chars_of_chars in Heq.
  by rewrite split_chars_no_sep.
Qed.

(** X4. [queryParameter] always returns a string (never [undefined]): a
    piece of the query string of at most 48 characters without [=]. *)
Theorem queryParameter_shape queryString :
  ∃ result,
    queryParameter queryString = Some result ∧
    ("="%char ∉ JSString.chars result) ∧
    String.length result ≤ 48 ∧
    occurs_in result queryString.
Proof.
  destruct (queryParameter_window queryString)
    as (window & -> & Hlen & k & Hwindow).
  destruct (last_split_chars "=" window) as (r & -> & Hr & Hsuffix).
  exists (JSString.of_chars r). rewrite chars_of_chars, <- chars_length, chars_of_chars.
  assert (r `suffix_of` window) as [a Ha].
  { destruct Hsuffix as [[_ ->]|[a ->]]; [done|].
    exists (a ++ ["="%char]). by rewrite <- app_assoc. }
  split_and!; [done | done | |].
  - rewrite Ha, length_app in Hlen. lia.
  - assert (∃ x y, JSString.chars queryString = x ++ window ++ y)
      as (x & y & Hq).
    { destruct Hwindow as [->| ->].
      - exists (take k (JSString.chars queryString)),
          (drop 48 (drop k (JSString.chars queryString))).
        by rewrite take_drop, take_drop.
      - exists [], (drop 47 (JSString.chars queryString)).
        by rewrite take_drop. }
    exists (JSString.of_chars (x ++ a)), (JSString.of_chars y).
    apply chars_inj. rewrite !chars_app, !chars_of_chars, Hq, Ha.
    by rewrite <- !app_assoc.
Qed.

Lemma not_occurs_in_indexOf s search :
  JSString.indexOf s search = (-1)%Z → ¬ occurs_in search s.
Proof.
  unfold JSString.indexOf. intros Hi (k & Hpre & Hk)%occurs_in_chars.
  destruct (JSString.search_from _ _ _) as [n|] eqn:Hs; [lia|].
  by destruct (search_from_None _ _ _ Hs k).
Qed.

Lemma queryParameter_reads_36_witness :
  ¬ occurs_in "collaborate" ("?" +:+ "collaborat") ∧
  ("="%char
   ∉ JSString.chars
       (first_chars 36 "6fa459ea-ee8a-11e8-a1d1-0242ac130003&x=1")) ∧
  queryParameter
    ("?" +:+ "collaborate=" +:+ "6fa459ea-ee8a-11e8-a1d1-0242ac130003&x=1")
  = Some (first_chars 36 "6fa459ea-ee8a-11e8-a1d1-0242ac130003&x=1") ∧
  first_chars 36 "6fa459ea-ee8a-11e8-a1d1-0242ac130003&x=1"
  = "6fa459ea-ee8a-11e8-a1d1-0242ac130003".
Proof.
  assert (¬ occurs_in "collaborate" ("?" +:+ "collaborat")) as Hfirst.
  { apply not_occurs_in_indexOf. vm_compute. reflexivity. }
  assert ("="%char
          ∉ JSString.chars
              (first_chars 36 "6fa459ea-ee8a-11e8-a1d1-0242ac130003&x=1"))
    as Hid.
  { apply (bool_decide_unpack _). vm_compute. exact I. }
  split; [exact Hfirst|]. split; [exact Hid|].
  split; [|vm_compute; reflexivity].
  apply (queryParameter_reads_36 "?"
           "6fa459ea-ee8a-11e8-a1d1-0242ac130003&x=1" Hfirst Hid).
Defined.

Lemma queryParameter_takes_last_value_witness :
  ¬ occurs_in "collaborate" ("?" +:+ "collaborat") ∧
  String.length "abc" + String.length "&x" + String.length "1" + 1 ≤ 36 ∧
  ("="%char ∉ JSString.chars "1") ∧
  queryParameter ("?" +:+ "collaborate=" +:+ "abc" +:+ "&x" +:+ "=" +:+ "1")
  = Some "1".
Proof.
  assert (¬ occurs_in "collaborate" ("?" +:+ "collaborat")) as Hfirst.
  { apply not_occurs_in_indexOf. vm_compute. reflexivity. }
  assert ("="%char ∉ JSString.chars "1") as Hvalue.
  { apply (bool_decide_unpack _). vm_compute. exact I. }
  split; [exact Hfirst|]. split; [simpl; lia|]. split; [exact Hvalue|].
  apply (queryParameter_takes_last_value "?" "abc" "&x" "1" Hfirst);
    [simpl; lia | exact Hvalue].
Defined.

Lemma queryParameter_without_parameter_witness :
  ¬ occurs_in "collaborate" "post.php" ∧
  ("="%char ∉ JSString.chars (first_chars 47 "post.php")) ∧
  queryParameter "post.php" = Some (first_chars 47 "post.php") ∧
  first_chars 47 "post.php" = "post.php".
Proof.
  assert (¬ occurs_in "collaborate" "post.php") as Hno.
  { apply not_occurs_in_indexOf. vm_compute. reflexivity. }
  assert ("="%char ∉ JSString.chars (first_chars 47 "post.php")) as Heq.
  { apply (bool_decide_unpack _). vm_compute. exact I. }
  split; [exact Hno|]. split; [exact Heq|].
  split; [|vm_compute; reflexivity].
  apply (queryParameter_without_parameter "post.php" Hno Heq).
Defined.


(** ** More on [setDifference] *)

Section set_difference_order.
Context {A : Type} `{EqDecision A}.
Implicit Types (s l : list A).

Lemma JSSet_foldl_delete_filter l s :
  foldl JSSet.delete s l = filter (λ x, x ∉ l) s.
Proof.
  revert s. induction l as [|b l IH]; intros s; cbn [foldl].
  - induction s as [|x s IHs]; [done|].
    rewrite filter_cons_True by apply not_elem_of_nil. by rewrite <- IHs.
  - rewrite IH. unfold JSSet.delete. rewrite list_filter_filter.
    apply list_filter_iff. intros x. rewrite not_elem_of_cons. tauto.
Qed.

Lemma JSSet_foldl_add_sublist l s :
  ∃ k, foldl JSSet.add s l = s ++ k ∧ k `sublist_of` l.
Proof.
  revert s. induction l as [|x l IH]; intros s; cbn [foldl].
  - exists []. by rewrite app_nil_r.
  - destruct (IH (JSSet.add s x)) as (k & -> & Hk).
    unfold JSSet.add. destruct (JSSet.has s x).
    + exists k. split; [done|]. by apply sublist_cons.
    + exists (x :: k). rewrite <- app_assoc. split; [done|].
      by apply sublist_skip.
Qed.

Lemma JSSet_of_iterable_sublist l : JSSet.of_iterable l `sublist_of` l.
Proof.
  unfold JSSet.of_iterable.
  by destruct (JSSet_foldl_add_sublist l []) as (k & -> & Hk).
Qed.

Lemma setDifference_filter (setA setB : list A) :
  setDifference setA setB
  = filter (λ x, x ∉ setB) (JSSet.of_iterable setA).
Proof. unfold setDifference. apply JSSet_foldl_delete_filter. Qed.

(** X5. [setDifference(setA, setB)] keeps the elements of [setA] that are
    not in [setB] in the order in which [setA] holds them. *)
Theorem setDifference_keeps_order (setA setB : list A) :
  setDifference setA setB
  = filter (λ x, x ∉ setB) (JSSet.of_iterable setA) ∧
  setDifference setA setB `sublist_of` setA.
Proof.
  split; [apply setDifference_filter|].
  rewrite setDifference_filter. etrans; [apply sublist_filter|].
  apply JSSet_of_iterable_sublist.
Qed.

(** X6. Taking two differences in a row is taking the difference with both
    sets at once; taking the same difference again changes nothing; the
    difference of a set with itself is empty; the difference with the empty
    set is the set. *)
Theorem setDifference_composes (setA setB setC : list A) :
  setDifference (setDifference setA setB) setC
  = setDifference setA (setB ++ setC) ∧
  setDifference (setDifference setA setB) setB = setDifference setA setB ∧
  setDifference setA setA = [] ∧
  setDifference setA [] = JSSet.of_iterable setA.
Proof.
  assert (∀ X Y Z : list A,
            setDifference (setDifference X Y) Z = setDifference X (Y ++ Z))
    as Hcomp.
  { intros X Y Z. rewrite (setDifference_filter _ Z), JSSet_of_iterable_NoDup
      by apply NoDup_setDifference.
    rewrite !setDifference_filter, list_filter_filter. apply list_filter_iff.
    intros x. rewrite not_elem_of_app. tauto. }
  split_and!.
  - apply Hcomp.
  - rewrite Hcomp, !setDifference_filter. apply list_filter_iff. intros x.
    rewrite not_elem_of_app. tauto.
  - rewrite setDifference_filter. apply elem_of_nil_inv.
    intros x [Hout Hin]%list_elem_of_filter.
    rewrite JSSet_elem_of_of_iterable in Hin. exact (Hout Hin).
  - rewrite setDifference_filter.
    induction (JSSet.of_iterable setA) as [|x s IHs]; [done|].
    rewrite filter_cons_True by apply not_elem_of_nil. by rewrite IHs.
Qed.

End set_difference_order.

(** ** More on the event loop *)

Lemma omap_cons_None {A B} (f : A → option B) x l :
  f x = None → omap f (x :: l) = omap f l.
Proof. intros Hx. simpl. by rewrite Hx. Qed.

Lemma omap_cons_Some {A B} (f : A → option B) x y l :
  f x = Some y → omap f (x :: l) = y :: omap f l.
Proof. intros Hx. simpl. by rewrite Hx. Qed.

Lemma omap_peerFound_effects_nil {B} (f : Effect → option B) listeners
    (l : list string) :
  (∀ s, f (Emit (peerFound_event s)) = None) →
  (∀ s, f (PeerSignal s) = None) →
  f GenerateKeys = None →
  omap f (l ≫= peerFound_effects listeners) = [].
Proof.
  intros H1 H2 H3. induction l as [|x l IH]; [done|].
  rewrite bind_cons, omap_app, IH, app_nil_r. unfold peerFound_effects.
  rewrite omap_cons_None by auto.
  clear IH. induction listeners as [|[] ls IHls]; [done|..];
    cbn [map listener_effect]; by rewrite omap_cons_None by auto.
Qed.

Lemma omap_poll_effects_nil {B} (f : Effect → option B) resp o :
  (∀ s, f (Emit (peerFound_event s)) = None) →
  (∀ s, f (PeerSignal s) = None) →
  f GenerateKeys = None →
  omap f (poll_effects resp o) = [].
Proof.
  intros H1 H2 H3. unfold poll_effects.
  destruct (transport o); try by apply omap_peerFound_effects_nil.
  destruct (poll_news resp o); [done|]. simpl. by rewrite H1, H2.
Qed.

Lemma fed_key_listeners x n :
  fed (map (listener_effect x) (replicate n start_key_exchange)) = [].
Proof. induction n as [|n IH]; [done|exact IH]. Qed.

Lemma fed_peerFound_effects n (l : list string) :
  fed (l ≫= peerFound_effects
               (feed_transport :: replicate n start_key_exchange)) = l.
Proof.
  induction l as [|x l IH]; [done|].
  rewrite bind_cons. unfold fed in *. rewrite omap_app, IH.
  unfold peerFound_effects. cbn [map listener_effect].
  rewrite omap_cons_None, (omap_cons_Some _ _ x) by done.
  pose proof (fed_key_listeners x n) as Hn. unfold fed in Hn.
  by rewrite Hn.
Qed.

Lemma fed_poll_effects n resp o :
  on_peerFound o = feed_transport :: replicate n start_key_exchange →
  fed (poll_effects resp o) = poll_found resp o.
Proof.
  intros Hls. unfold poll_effects, poll_found. rewrite Hls.
  destruct (transport o); try apply fed_peerFound_effects.
  by destruct (poll_news resp o).
Qed.

Lemma local_signals_snoc hist ev :
  local_signals (hist ++ [ev])
  = local_signals hist ++ match ev with peer_signal d => [d] | _ => [] end.
Proof. unfold local_signals. rewrite omap_app. by destruct ev. Qed.

Lemma acknowledged_snoc hist ev :
  acknowledged (hist ++ [ev])
  = acknowledged hist + match ev with updateSignal_resolved => 1 | _ => 0 end.
Proof.
  unfold acknowledged. rewrite omap_app, length_app. by destruct ev.
Qed.

Lemma refused_snoc hist ev :
  refused (hist ++ [ev])
  = refused hist + match ev with updateSignal_rejected => 1 | _ => 0 end.
Proof. unfold refused. rewrite omap_app, length_app. by destruct ev. Qed.

Lemma ticks_snoc hist ev :
  ticks (hist ++ [ev])
  = ticks hist + match ev with interval_fires _ => 1 | _ => 0 end.
Proof. unfold ticks. rewrite omap_app, length_app. by destruct ev. Qed.

Lemma generated_keys_snoc hist ev :
  generated_keys (hist ++ [ev])
  = generated_keys hist
    ++ match ev with generateKeys_resolved k => [k] | _ => [] end.
Proof. unfold generated_keys. rewrite omap_app. by destruct ev. Qed.

Lemma outgoing_snoc hist ev :
  outgoing (hist ++ [ev])
  = outgoing hist
    ++ match ev with
       | call_send data => [data]
       | generateKeys_resolved k =>
           [JObject [("publicKey", JString (publicKey k))]]
       | _ => []
       end.
Proof. unfold outgoing. rewrite omap_app. by destruct ev. Qed.

Lemma fed_app tr1 tr2 : fed (tr1 ++ tr2) = fed tr1 ++ fed tr2.
Proof. unfold fed. apply omap_app. Qed.

Lemma transports_app tr1 tr2 :
  transports (tr1 ++ tr2) = transports tr1 ++ transports tr2.
Proof. unfold transports. apply omap_app. Qed.

Lemma announced_app tr1 tr2 :
  announced (tr1 ++ tr2) = announced tr1 ++ announced tr2.
Proof. unfold announced. apply omap_app. Qed.

Lemma sent_app tr1 tr2 : sent (tr1 ++ tr2) = sent tr1 ++ sent tr2.
Proof. unfold sent. apply omap_app. Qed.

Lemma forced_app tr1 tr2 : forced (tr1 ++ tr2) = forced tr1 ++ forced tr2.
Proof. unfold forced. apply omap_app. Qed.

Lemma polls_app tr1 tr2 : polls (tr1 ++ tr2) = polls tr1 + polls tr2.
Proof. unfold polls. by rewrite omap_app, length_app. Qed.

Lemma key_listeners_replicate n :
  length (filter (λ l, l = start_key_exchange)
            (feed_transport :: replicate n start_key_exchange)) = n.
Proof.
  rewrite filter_cons_False by done.
  induction n as [|n IH]; [done|]. simpl replicate.
  rewrite filter_cons_True by done. simpl. by rewrite IH.
Qed.

(** The observations that no response of a poll touches. *)
Lemma quiet_poll_effects resp o :
  announced (poll_effects resp o) = [] ∧
  transports (poll_effects resp o) = [] ∧
  sent (poll_effects resp o) = [] ∧
  forced (poll_effects resp o) = [] ∧
  polls (poll_effects resp o) = 0.
Proof.
  unfold announced, transports, sent, forced, polls.
  by rewrite !omap_poll_effects_nil.
Qed.

Section more_handlers.
Variable JSON_parse : string → option JSValue.

Lemma run_invariant_history
    (P : list Event → GRTC → list Effect → Prop) :
  (∀ hist o tr ev,
     P hist o tr → enabled o ev = true →
     P (hist ++ [ev]) (final (handle JSON_parse ev o))
       (tr ++ effects (handle JSON_parse ev o))) →
  ∀ evs hist o tr o' tr',
    P hist o tr → run JSON_parse evs o tr = Some (o', tr') →
    P (hist ++ evs) o' tr'.
Proof.
  intros Hstep evs.
  induction evs as [|ev evs IH]; intros hist o tr o' tr' HP Hrun.
  - simpl in Hrun. simplify_eq. by rewrite app_nil_r.
  - simpl in Hrun. destruct (enabled o ev) eqn:Hen; [|done].
    rewrite cons_middle, app_assoc. eapply IH; [|done]. by apply Hstep.
Qed.

Lemma handshake_state_step hist o tr ev :
  handshake_state hist o tr →
  handshake_state (hist ++ [ev]) (final (handle JSON_parse ev o))
    (tr ++ effects (handle JSON_parse ev o)).
Proof.
  intros (Hp & Hsettled & Hheld & Hpub & Hann).
  split; [by apply step_wired|].
  unfold local_signals, announced in *.
  rewrite published_app, !omap_app, Hpub, Hann.
  destruct ev.
  5: { rewrite handle_getSignal_resolved by done. simpl.
       rewrite published_poll_effects, omap_poll_effects_nil by done.
       by rewrite !app_nil_r. }
  all: destruct o; simpl in *; unfold_methods; case_stuck JSON_parse;
    rewrite ?app_nil_r; try done.
  all: destruct (omap _ hist) as [|d ds] eqn:Hls; simplify_eq/=;
    try (by case_bool_decide).
  all: split_and!; try done; try (by rewrite last_app).
  all: try (by case_bool_decide).
  all: by rewrite app_comm_cons, last_snoc.
Qed.

Lemma security_state_step hist o tr ev :
  security_state hist o tr → enabled o ev = true →
  security_state (hist ++ [ev]) (final (handle JSON_parse ev o))
    (tr ++ effects (handle JSON_parse ev o)).
Proof.
  intros (Hp & Hsi & Hpend & Hls & Hfed & Hkeys) Hen.
  split; [by apply step_wired|].
  rewrite acknowledged_snoc, refused_snoc, published_app, fed_app, found_app,
    key_generations_app, Hfed, length_app.
  destruct ev.
  5: { rewrite handle_getSignal_resolved by done. simpl.
       rewrite published_poll_effects, found_poll_effects.
       rewrite key_generations_poll_effects.
       rewrite (fed_poll_effects _ _ _ Hls).
       unfold key_exchange_listeners. rewrite Hls, key_listeners_replicate.
       rewrite ?app_nil_r, ?Nat.add_0_r. split_and!; try done.
       pose proof (prefix_length _ _ (poll_seen_prefix resp o)).
       rewrite length_app. nia. }
  all: destruct o; simpl in *; subst.
  all: try (apply bool_decide_eq_true in Hen).
  all: unfold_methods; case_stuck JSON_parse.
  all: try (assert (is_Some (@None Signal)) as [? [=]] by (apply Hsi; lia)).
  all: rewrite ?app_nil_r, ?Nat.add_0_r; simpl.
  all: split_and!; try done; try lia; try nia.
  all: try (intros; apply Hsi; lia).
  by rewrite Nat.add_1_r, replicate_S_end.
Qed.

Lemma timers_state_step j hist o tr ev :
  timers_state j hist o tr → enabled o ev = true →
  timers_state j (hist ++ [ev]) (final (handle JSON_parse ev o))
    (tr ++ effects (handle JSON_parse ev o)).
Proof.
  intros (Hp & Hsi & Hseq & Hnext & Htimer & Hlen & Hcount & Hticks & Hpolls)
    Hen.
  split; [by apply step_wired|].
  rewrite acknowledged_snoc, ticks_snoc, polls_app.
  destruct ev.
  5: { rewrite handle_getSignal_resolved by done. simpl.
       destruct (quiet_poll_effects resp o) as (_ & _ & _ & _ & ->).
       rewrite ?Nat.add_0_r. done. }
  all: destruct o; simpl in *; subst.
  all: try (apply bool_decide_eq_true in Hen).
  all: unfold_methods; case_stuck JSON_parse.
  all: try (assert (is_Some (@None Signal)) as [? [=]]
              by (apply Hsi; first [left; lia | right; lia])).
  all: try (assert (is_Some (@None Signal)) as [? [=]]
              by (apply Hsi; right; destruct intervals0;
                  [by apply elem_of_nil in Hen | simpl; lia])).
  all: rewrite ?app_nil_r, ?Nat.add_0_r, ?length_app; simpl.
  all: split_and!; try done; try lia.
  all: unfold polls in *; simpl; try lia.
  all: try (intros [?|?]; apply Hsi; [left; lia | by right]).
  all: try (right; destruct intervals0;
            [by apply elem_of_nil in Hen | simpl; lia]).
  all: rewrite Nat.add_1_r, seq_S, <- Hseq; done.
Qed.

Lemma transport_state_step j hist o tr ev :
  transport_state j hist o tr →
  transport_state j (hist ++ [ev]) (final (handle JSON_parse ev o))
    (tr ++ effects (handle JSON_parse ev o)).
Proof.
  intros (Hw & Hp & Htr & Hforced & Hsent & Hkeys).
  split; [by apply step_wired|].
  rewrite outgoing_snoc, generated_keys_snoc, transports_app, forced_app,
    sent_app, Htr, Hforced, Hsent.
  destruct ev.
  5: { rewrite handle_getSignal_resolved by done. simpl.
       destruct (quiet_poll_effects resp o) as (_ & -> & -> & -> & _).
       by rewrite ?app_nil_r. }
  all: destruct o; simpl in *; subst.
  all: unfold_methods; case_stuck JSON_parse.
  all: rewrite ?app_nil_r; try done.
  all: split_and!; try done; by rewrite last_snoc.
Qed.

(** A message changes nothing in the session and emits one of the two
    events of [dataHandler], or none. *)
Lemma handle_peer_data o data :
  final (handle JSON_parse (peer_data data) o) = o ∧
  without_message_events (effects (handle JSON_parse (peer_data data) o)) = [].
Proof. destruct o. unfold_methods. by case_stuck JSON_parse. Qed.

Lemma without_message_events_app tr1 tr2 :
  without_message_events (tr1 ++ tr2)
  = without_message_events tr1 ++ without_message_events tr2.
Proof. unfold without_message_events. apply omap_app. Qed.

Lemma without_message_events_peerFound listeners (l : list string) :
  without_message_events (l ≫= peerFound_effects listeners)
  = l ≫= peerFound_effects listeners.
Proof.
  induction l as [|x l IH]; [done|].
  rewrite bind_cons, without_message_events_app, IH. f_equal.
  unfold peerFound_effects, without_message_events.
  rewrite (omap_cons_Some _ _ (Emit (peerFound_event x))) by done. f_equal.
  clear IH.
  induction listeners as [|[] ls IHls]; [done|..]; cbn [map listener_effect].
  - by rewrite (omap_cons_Some _ _ (PeerSignal x)), IHls.
  - by rewrite (omap_cons_Some _ _ GenerateKeys), IHls.
Qed.

Lemma without_message_events_poll resp o :
  without_message_events (poll_effects resp o) = poll_effects resp o.
Proof.
  unfold poll_effects.
  destruct (transport o); try apply without_message_events_peerFound.
  by destruct (poll_news resp o).
Qed.

(** Only [dataHandler] emits ['publicKey'] and ['peerData']. *)
Lemma handle_no_message_events ev o :
  wired o →
  (∀ data, ev ≠ peer_data data) →
  without_message_events (effects (handle JSON_parse ev o))
  = effects (handle JSON_parse ev o).
Proof.
  intros Hp Hev. destruct ev; try by destruct (Hev data).
  4: { rewrite handle_getSignal_resolved by done. simpl.
       apply without_message_events_poll. }
  all: destruct o; unfold_methods; by case_stuck JSON_parse.
Qed.

Lemma run_without_messages evs o tr o' tr' :
  wired o →
  run JSON_parse evs o tr = Some (o', tr') →
  run JSON_parse (without_messages evs) o (without_message_events tr)
  = Some (o', without_message_events tr').
Proof.
  revert o tr. induction evs as [|ev evs IH]; intros o tr Hp Hrun.
  - simpl in *. by simplify_eq.
  - cbn [run] in Hrun. destruct (enabled o ev) eqn:Hen; [|done].
    apply IH in Hrun; [|by apply step_wired].
    rewrite without_message_events_app in Hrun.
    destruct ev.
    3: { destruct (handle_peer_data o data) as [Ho Htr].
         rewrite Ho, Htr, app_nil_r in Hrun. exact Hrun. }
    all: rewrite handle_no_message_events in Hrun by done.
    all: unfold without_messages; cbn [omap list_omap]; cbn [run].
    all: by rewrite Hen.
Qed.

Lemma session_history (P : list Event → GRTC → list Effect → Prop)
    grtcID url joinee reload evs o tr :
  (∀ hist o tr ev,
     P hist o tr → enabled o ev = true →
     P (hist ++ [ev]) (final (handle JSON_parse ev o))
       (tr ++ effects (handle JSON_parse ev o))) →
  P [] (final (constructor grtcID url joinee reload))
    (effects (constructor grtcID url joinee reload)) →
  session JSON_parse grtcID url joinee reload evs = Some (o, tr) →
  P evs o tr.
Proof.
  intros Hstep Hinit Hrun.
  apply (run_invariant_history P Hstep evs [] _ _ _ _ Hinit Hrun).
Qed.

Lemma session_handshake_state grtcID url joinee reload evs o tr :
  session JSON_parse grtcID url joinee reload evs = Some (o, tr) →
  handshake_state evs o tr.
Proof.
  apply session_history.
  - intros ???? HP _. by apply handshake_state_step.
  - by destruct joinee.
Qed.

Lemma session_security_state grtcID url joinee reload evs o tr :
  session JSON_parse grtcID url joinee reload evs = Some (o, tr) →
  security_state evs o tr.
Proof.
  apply session_history.
  - intros. by apply security_state_step.
  - destruct joinee; unfold security_state; simpl; split_and!; try done; lia.
Qed.

Lemma session_timers_state grtcID url joinee reload evs o tr :
  session JSON_parse grtcID url joinee reload evs = Some (o, tr) →
  timers_state joinee evs o tr.
Proof.
  apply session_history.
  - intros. by apply timers_state_step.
  - destruct joinee; unfold timers_state; simpl; split_and!; try done;
      try lia; auto.
Qed.

Lemma session_transport_state grtcID url joinee reload evs o tr :
  session JSON_parse grtcID url joinee reload evs = Some (o, tr) →
  transport_state joinee evs o tr.
Proof.
  apply session_history.
  - intros ???? HP _. by apply transport_state_step.
  - by destruct joinee.
Qed.

Lemma session_acknowledged_once grtcID url joinee reload evs o tr :
  session JSON_parse grtcID url joinee reload evs = Some (o, tr) →
  acknowledged evs + refused evs ≤ 1.
Proof.
  intros Hs.
  pose proof (session_handshake_state _ _ _ _ _ _ _ Hs) as (_ & _ & _ & Hpub & _).
  pose proof (session_security_state _ _ _ _ _ _ _ Hs) as (_ & _ & Hpend & _).
  rewrite Hpub, length_fmap, length_take in Hpend. lia.
Qed.

(** X7. A session creates one transport, in its constructor: initiator
    when the flag [joinee] is [true], without trickle; no event replaces
    it. *)
Theorem one_transport_per_session grtcID url joinee reload evs o tr :
  session JSON_parse grtcID url joinee reload evs = Some (o, tr) →
  transports tr = [{| initiator := joinee; trickle := false |}] ∧
  peer o = Some {| initiator := joinee; trickle := false |}.
Proof. by intros (_ & ? & ? & _)%session_transport_state. Qed.

(** X8. No session asks the store to clear the room by force:
    [clearSignal] is never called. *)
Theorem room_is_never_cleared grtcID url joinee reload evs o tr :
  session JSON_parse grtcID url joinee reload evs = Some (o, tr) →
  ∀ u g s, Ajax (set_force_request u g s) ∉ tr.
Proof.
  intros (_ & _ & _ & Hforced & _)%session_transport_state u g s Hin.
  assert (set_force_request u g s ∈ forced tr) as Hf.
  { unfold forced. apply list_elem_of_omap. by eexists. }
  rewrite Hforced in Hf. by apply elem_of_nil in Hf.
Qed.

(** X9. What the session hands to [peer.send] is what the events ask
    for, in their order: the data of every call of [send], at once and
    whether or not keys have been exchanged, and one message with the
    public key for every key pair that is generated; [keys] holds the last
    pair.  Nothing is kept for later: the transport takes the data of a call
    of [send] when it is connected, and in every other state [peer.send]
    throws, the exception leaves [send], and the session is as it was. *)
Theorem send_calls_follow_events grtcID url joinee reload evs o tr :
  session JSON_parse grtcID url joinee reload evs = Some (o, tr) →
  sent tr = outgoing evs ∧ keys o = last (generated_keys evs) ∧
  ∀ data,
    handle JSON_parse (call_send data) o
    = {| outcome := match transport o with
                    | transport_connected => Return ()
                    | _ => Throw PeerError
                    end;
         final := o;
         effects := [PeerSend data] |}.
Proof.
  intros (_ & Hp & _ & _ & ? & ?)%session_transport_state.
  split_and!; [done..|]. intros data.
  destruct o; simpl in *; subst. unfold_methods. by case_stuck JSON_parse.
Qed.

(** X10. Every blob that ['peerFound'] announces is handed to
    [peer.signal], once and in the same order, and nothing else is. *)
Theorem found_blobs_are_fed grtcID url joinee reload evs o tr :
  session JSON_parse grtcID url joinee reload evs = Some (o, tr) →
  fed tr = found tr.
Proof. by intros (_ & _ & _ & _ & ? & _)%session_security_state. Qed.

(** X11. Key pairs are requested only by the listener that
    [securityHandler] registers, and it is registered when the store has
    acknowledged the publication, once at most: before that no key pair is
    requested, after it at most one for each blob that is found. *)
Theorem keys_wait_for_acknowledgement grtcID url joinee reload evs o tr :
  session JSON_parse grtcID url joinee reload evs = Some (o, tr) →
  key_generations tr ≤ length (found tr) * acknowledged evs ∧
  acknowledged evs ≤ 1 ∧
  key_exchange_listeners o = acknowledged evs.
Proof.
  intros Hs. pose proof (session_acknowledged_once _ _ _ _ _ _ _ Hs).
  apply session_security_state in Hs as (_ & _ & _ & Hls & _ & Hkeys).
  split_and!; [done | lia |].
  unfold key_exchange_listeners. by rewrite Hls, key_listeners_replicate.
Qed.

(** X12. A session publishes once, when its transport has handed over
    a local signal, and what it publishes is a local signal of its
    transport: later signals are not published, and a publication that the
    store refuses is not tried again. *)
Theorem publication_happens_once grtcID url joinee reload evs o tr :
  session JSON_parse grtcID url joinee reload evs = Some (o, tr) →
  length (published tr) ≤ 1 ∧
  (published tr = [] ↔ local_signals evs = []) ∧
  (∀ s, s ∈ published tr → ∃ d, s = Some d ∧ d ∈ local_signals evs) ∧
  acknowledged evs + refused evs ≤ length (published tr).
Proof.
  intros Hs.
  pose proof (session_handshake_state _ _ _ _ _ _ _ Hs) as (_ & _ & _ & Hpub & _).
  pose proof (session_security_state _ _ _ _ _ _ _ Hs) as (_ & _ & Hpend & _).
  split_and!; [| | |lia].
  - rewrite Hpub, length_fmap, length_take. lia.
  - rewrite Hpub. by destruct (local_signals evs).
  - rewrite Hpub. intros s (d & -> & Hd)%list_elem_of_fmap.
    exists d. split; [done|].
    eapply elem_of_sublist; [done | apply sublist_take].
Qed.

(** X13. The signal that the session holds is the last one that the
    transport has handed over, and every local signal is announced by one
    ['peerSignal'] event. *)
Theorem last_signal_is_held grtcID url joinee reload evs o tr :
  session JSON_parse grtcID url joinee reload evs = Some (o, tr) →
  peerSignal o = last (local_signals evs) ∧
  announced tr = local_signals evs.
Proof. by intros (_ & _ & ? & _ & ?)%session_handshake_state. Qed.

(** X14. A session has as many timers as [listenSignal] was called: one
    from the constructor of a joinee, one more when the publication is
    acknowledged; so at most two, and at most one for the initiator.
    [listenSignalTimer] is the handle of the timer that was set last, and
    the 0 of the constructor when none was set. *)
Theorem at_most_two_timers grtcID url joinee reload evs o tr :
  session JSON_parse grtcID url joinee reload evs = Some (o, tr) →
  length (intervals o) = (if joinee then 0 else 1) + acknowledged evs ∧
  acknowledged evs ≤ 1 ∧
  length (intervals o) ≤ 2 ∧
  listenSignalTimer o = default 0 (last (intervals o)).
Proof.
  intros Hs. pose proof (session_acknowledged_once _ _ _ _ _ _ _ Hs).
  apply session_timers_state in Hs
    as (_ & _ & Hseq & _ & Htimer & Hlen & _).
  split_and!; [done | lia | destruct joinee; lia |].
  rewrite Htimer, Hseq, length_seq.
  destruct (length (intervals o)) as [|n]; [done|].
  by rewrite seq_S, last_snoc.
Qed.

(** X15. The polls of a session are one for each timer that is set (the
    poll with which [listenSignal] starts) and one for each time a timer has
    fired; [listenSignalCount] counts the latter. *)
Theorem polls_are_starts_and_ticks grtcID url joinee reload evs o tr :
  session JSON_parse grtcID url joinee reload evs = Some (o, tr) →
  polls tr = length (intervals o) + ticks evs ∧
  listenSignalCount o = ticks evs.
Proof.
  intros (_ & _ & _ & _ & _ & _ & Hcount & _ & Hpolls)%session_timers_state.
  split; [lia|done].
Qed.

(** X16. An initiator whose publication has not been acknowledged has no
    timer and has never polled: when the store refuses the publication, or
    does not answer, discovery does not start. *)
Theorem unacknowledged_initiator_never_polls grtcID url reload evs o tr :
  session JSON_parse grtcID url true reload evs = Some (o, tr) →
  acknowledged evs = 0 →
  polls tr = 0 ∧ intervals o = [].
Proof.
  intros (_ & _ & _ & _ & _ & Hlen & _ & Hticks & Hpolls)%session_timers_state
    Hack.
  rewrite Hack in Hlen. simpl in Hlen. split; [lia|].
  by apply nil_length_inv.
Qed.

(** X17. The messages of the peer do not steer the session: without
    them the same events lead to the same state, and to the same trace but
    for the ['publicKey'] and ['peerData'] events. *)
Theorem messages_do_not_steer grtcID url joinee reload evs o tr :
  session JSON_parse grtcID url joinee reload evs = Some (o, tr) →
  session JSON_parse grtcID url joinee reload (without_messages evs)
  = Some (o, without_message_events tr).
Proof.
  unfold session. intros Hrun.
  apply run_without_messages in Hrun; [|apply constructor_wired].
  by destruct joinee.
Qed.

(** X18. As long as the transport is not destroyed, the response of a
    poll makes the session emit the blobs that are not in [otherPeers] and
    are not the held signal, each once, in the order in which they first
    occur in the response, hand each to the transport and add it to
    [otherPeers].  On a destroyed transport [peer.signal] throws at the
    first of these blobs: it is emitted and handed over, it is not added to
    [otherPeers], the blobs after it are not emitted, and the exception ends
    the callback. *)
Theorem poll_emits_in_response_order grtcID url joinee reload evs o tr resp :
  session JSON_parse grtcID url joinee reload evs = Some (o, tr) →
  let r := handle JSON_parse (getSignal_resolved resp) o in
  let news :=
    filter (λ s, (s ∉ otherPeers o) ∧ s ≠ JSON_stringify (peerSignal o))
      (JSSet.of_iterable resp) in
  found (effects r)
  = match transport o with
    | transport_destroyed => take 1 news
    | _ => news
    end ∧
  otherPeers (final r)
  = otherPeers o ++ match transport o with
                    | transport_destroyed => []
                    | _ => news
                    end ∧
  outcome r
  = match transport o, news with
    | transport_destroyed, _ :: _ => Throw PeerError
    | _, _ => Return ()
    end ∧
  found (effects r) `sublist_of` resp ∧
  fed (effects r) = found (effects r).
Proof.
  intros Hs r news.
  pose proof (session_security_state _ _ _ _ _ _ _ Hs)
    as (Hp & _ & _ & Hls & _).
  unfold r. rewrite handle_getSignal_resolved by done. simpl.
  rewrite found_poll_effects, (fed_poll_effects _ _ _ Hls).
  assert (poll_news resp o = news) as Heq.
  { unfold poll_news, news.
    rewrite setDifference_filter, JSSet_of_iterable_NoDup
      by apply JSSet_NoDup_of_iterable.
    rewrite list_filter_filter. apply list_filter_iff. tauto. }
  unfold poll_found, poll_seen, poll_outcome. rewrite Heq.
  assert (news `sublist_of` resp) as Hsub.
  { unfold news.
    etrans; [apply sublist_filter | apply JSSet_of_iterable_sublist]. }
  split_and!; [done..| |done].
  destruct (transport o); try done. etrans; [apply sublist_take | done].
Qed.

End more_handlers.

(** ** More sessions of the examples *)

Lemma one_transport_per_session_witness :
  ∃ o tr,
    session JSON_parse_sample "room" "https://example.org" false false
      sample_events
    = Some (o, tr) ∧
    transports tr = [{| initiator := false; trickle := false |}] ∧
    peer o = Some {| initiator := false; trickle := false |}.
Proof.
  eexists _, _. split; [vm_compute; reflexivity|].
  eapply (one_transport_per_session JSON_parse_sample
            "room" "https://example.org" false false sample_events).
  vm_compute; reflexivity.
Defined.

Lemma room_is_never_cleared_witness :
  ∃ o tr,
    session JSON_parse_sample "room" "https://example.org" false false
      sample_events
    = Some (o, tr) ∧
    ∀ u g s, Ajax (set_force_request u g s) ∉ tr.
Proof.
  eexists _, _. split; [vm_compute; reflexivity|].
  eapply (room_is_never_cleared JSON_parse_sample
            "room" "https://example.org" false false sample_events).
  vm_compute; reflexivity.
Defined.

Lemma send_calls_follow_events_witness :
  ∃ o tr,
    session JSON_parse_sample "room" "https://example.org" false false
      sample_events
    = Some (o, tr) ∧
    sent tr = [JString "hello"; JObject [("publicKey", JString "P")]] ∧
    transport o = transport_negotiating ∧
    sent tr = outgoing (sample_events) ∧
    keys o = last (generated_keys (sample_events)) ∧
    ∀ data,
      handle JSON_parse_sample (call_send data) o
      = {| outcome := match transport o with
                      | transport_connected => Return ()
                      | _ => Throw PeerError
                      end;
           final := o;
           effects := [PeerSend data] |}.
Proof.
  eexists _, _. split; [vm_compute; reflexivity|].
  split; [vm_compute; reflexivity|]. split; [reflexivity|].
  eapply (send_calls_follow_events JSON_parse_sample
            "room" "https://example.org" false false sample_events).
  vm_compute; reflexivity.
Defined.

Lemma found_blobs_are_fed_witness :
  ∃ o tr,
    session JSON_parse_sample "room" "https://example.org" false false
      sample_events
    = Some (o, tr) ∧
    found tr = ["offer"; "third"] ∧
    fed tr = found tr.
Proof.
  eexists _, _. split; [vm_compute; reflexivity|].
  split; [vm_compute; reflexivity|].
  eapply (found_blobs_are_fed JSON_parse_sample
            "room" "https://example.org" false false sample_events).
  vm_compute; reflexivity.
Defined.

Lemma keys_wait_for_acknowledgement_witness :
  ∃ o tr,
    session JSON_parse_sample "room" "https://example.org" false false
      sample_events
    = Some (o, tr) ∧
    key_generations tr = 1 ∧
    key_generations tr ≤ length (found tr) * acknowledged (sample_events) ∧
    acknowledged (sample_events) ≤ 1 ∧
    key_exchange_listeners o = acknowledged (sample_events).
Proof.
  eexists _, _. split; [vm_compute; reflexivity|].
  split; [vm_compute; reflexivity|].
  eapply (keys_wait_for_acknowledgement JSON_parse_sample
            "room" "https://example.org" false false sample_events).
  vm_compute; reflexivity.
Defined.

Lemma publication_happens_once_witness :
  ∃ o tr,
    session JSON_parse_sample "room" "https://example.org" false false
      sample_events
    = Some (o, tr) ∧
    published tr = [Some "answer"] ∧
    local_signals (sample_events) = ["answer"; "answer2"] ∧
    length (published tr) ≤ 1 ∧
    (published tr = [] ↔ local_signals (sample_events) = []) ∧
    (∀ s, s ∈ published tr →
          ∃ d, s = Some d ∧ d ∈ local_signals (sample_events)) ∧
    acknowledged (sample_events) + refused (sample_events)
    ≤ length (published tr).
Proof.
  eexists _, _. split; [vm_compute; reflexivity|].
  split; [vm_compute; reflexivity|]. split; [reflexivity|].
  eapply (publication_happens_once JSON_parse_sample
            "room" "https://example.org" false false sample_events).
  vm_compute; reflexivity.
Defined.

Lemma last_signal_is_held_witness :
  ∃ o tr,
    session JSON_parse_sample "room" "https://example.org" false false
      sample_events
    = Some (o, tr) ∧
    peerSignal o = Some "answer2" ∧
    peerSignal o = last (local_signals (sample_events)) ∧
    announced tr = local_signals (sample_events).
Proof.
  eexists _, _. split; [vm_compute; reflexivity|].
  split; [vm_compute; reflexivity|].
  eapply (last_signal_is_held JSON_parse_sample
            "room" "https://example.org" false false sample_events).
  vm_compute; reflexivity.
Defined.

Lemma at_most_two_timers_witness :
  ∃ o tr,
    session JSON_parse_sample "room" "https://example.org" false false
      sample_events
    = Some (o, tr) ∧
    length (intervals o) = 2 ∧
    length (intervals o)
    = (if false then 0 else 1) + acknowledged (sample_events) ∧
    acknowledged (sample_events) ≤ 1 ∧
    length (intervals o) ≤ 2 ∧
    listenSignalTimer o = default 0 (last (intervals o)).
Proof.
  eexists _, _. split; [vm_compute; reflexivity|].
  split; [vm_compute; reflexivity|].
  eapply (at_most_two_timers JSON_parse_sample
            "room" "https://example.org" false false sample_events).
  vm_compute; reflexivity.
Defined.

Lemma polls_are_starts_and_ticks_witness :
  ∃ o tr,
    session JSON_parse_sample "room" "https://example.org" false false
      sample_events
    = Some (o, tr) ∧
    polls tr = 4 ∧
    polls tr = length (intervals o) + ticks (sample_events) ∧
    listenSignalCount o = ticks (sample_events).
Proof.
  eexists _, _. split; [vm_compute; reflexivity|].
  split; [vm_compute; reflexivity|].
  eapply (polls_are_starts_and_ticks JSON_parse_sample
            "room" "https://example.org" false false sample_events).
  vm_compute; reflexivity.
Defined.

Lemma messages_do_not_steer_witness :
  ∃ o tr,
    session JSON_parse_sample "room" "https://example.org" false false
      sample_events
    = Some (o, tr) ∧
    session JSON_parse_sample "room" "https://example.org" false false
      (without_messages (sample_events))
    = Some (o, without_message_events tr).
Proof.
  eexists _, _. split; [vm_compute; reflexivity|].
  eapply (messages_do_not_steer JSON_parse_sample
            "room" "https://example.org" false false sample_events).
  vm_compute; reflexivity.
Defined.

Lemma unacknowledged_initiator_never_polls_witness :
  ∃ o tr,
    session JSON_parse_sample "room" "https://example.org" true false
      [peer_signal "offer"; updateSignal_rejected]
    = Some (o, tr) ∧
    acknowledged [peer_signal "offer"; updateSignal_rejected] = 0 ∧
    published tr = [Some "offer"] ∧
    polls tr = 0 ∧ intervals o = [].
Proof.
  eexists _, _. split; [vm_compute; reflexivity|].
  split; [reflexivity|]. split; [vm_compute; reflexivity|].
  eapply (unacknowledged_initiator_never_polls JSON_parse_sample
            "room" "https://example.org" false
            [peer_signal "offer"; updateSignal_rejected]).
  - vm_compute; reflexivity.
  - reflexivity.
Defined.

Lemma poll_emits_in_response_order_witness :
  (∃ o tr,
     session JSON_parse_sample "room" "https://example.org" false false
       sample_events
     = Some (o, tr) ∧
     transport o = transport_negotiating ∧
     let r := handle JSON_parse_sample
                (getSignal_resolved ["b"; "offer"; "a"; "b"; "answer2"]) o in
     let news :=
       filter (λ s, (s ∉ otherPeers o) ∧ s ≠ JSON_stringify (peerSignal o))
         (JSSet.of_iterable ["b"; "offer"; "a"; "b"; "answer2"]) in
     found (effects r) = ["b"; "a"] ∧
     otherPeers (final r) = ["offer"; "third"; "b"; "a"] ∧
     found (effects r)
     = match transport o with
       | transport_destroyed => take 1 news
       | _ => news
       end ∧
     otherPeers (final r)
     = otherPeers o ++ match transport o with
                       | transport_destroyed => []
                       | _ => news
                       end ∧
     outcome r
     = match transport o, news with
       | transport_destroyed, _ :: _ => Throw PeerError
       | _, _ => Return ()
       end ∧
     found (effects r) `sublist_of` ["b"; "offer"; "a"; "b"; "answer2"] ∧
     fed (effects r) = found (effects r)) ∧
  (∃ o tr,
     session JSON_parse_sample "room" "https://example.org" false false
       [getSignal_resolved ["offer"]; peer_close]
     = Some (o, tr) ∧
     transport o = transport_destroyed ∧
     let r := handle JSON_parse_sample
                (getSignal_resolved ["b"; "offer"; "a"; "b"]) o in
     let news :=
       filter (λ s, (s ∉ otherPeers o) ∧ s ≠ JSON_stringify (peerSignal o))
         (JSSet.of_iterable ["b"; "offer"; "a"; "b"]) in
     found (effects r) = ["b"] ∧
     otherPeers (final r) = ["offer"] ∧
     outcome r = Throw PeerError ∧
     found (effects r)
     = match transport o with
       | transport_destroyed => take 1 news
       | _ => news
       end ∧
     otherPeers (final r)
     = otherPeers o ++ match transport o with
                       | transport_destroyed => []
                       | _ => news
                       end ∧
     outcome r
     = match transport o, news with
       | transport_destroyed, _ :: _ => Throw PeerError
       | _, _ => Return ()
       end ∧
     found (effects r) `sublist_of` ["b"; "offer"; "a"; "b"] ∧
     fed (effects r) = found (effects r)).
Proof.
  split.
  - eexists _, _. split; [vm_compute; reflexivity|].
    split; [reflexivity|].
    split; [vm_compute; reflexivity|]. split; [vm_compute; reflexivity|].
    eapply (poll_emits_in_response_order JSON_parse_sample
              "room" "https://example.org" false false sample_events).
    vm_compute; reflexivity.
  - eexists _, _. split; [vm_compute; reflexivity|].
    split; [reflexivity|].
    split; [vm_compute; reflexivity|]. split; [vm_compute; reflexivity|].
    split; [vm_compute; reflexivity|].
    eapply (poll_emits_in_response_order JSON_parse_sample
              "room" "https://example.org" false false
              [getSignal_resolved ["offer"]; peer_close]).
    vm_compute; reflexivity.
Defined.
